(** * emdr-relay-go: the deduplicating relay loop

    A shallow embedding of [emdr-relay-go.go]: the FNV-1 fingerprint of a
    message, the bounded LRU cache the relay consults, the relay loop of
    [main] with its optional decode-and-persist path, and the properties
    the specification states about them.

    The process is modelled sequentially, as a state-and-exit monad over a
    [World] that records the cache, the outbound socket, the bucket and a
    trace of events.  What the loop receives is a list of results of
    [receiver.Recv(0)]; the zlib and JSON decoders, the configuration and
    the wall clock are an environment [Env] that every statement
    quantifies over.  Socket setup, the loading of [config.json] and the
    timer of [periodic_exiter] are outside the model. *)

From Stdlib Require Import ZArith String Ascii List Lia Bool.
From Stdlib Require Import DecimalString DecimalPos DecimalZ.
From stdpp Require Import base gmap strings list.

Local Open Scope string_scope.
Local Open Scope list_scope.
Local Open Scope Z_scope.

(** ** Machine integers *)

(** Go's [uint32(x)], [byte(x)] and [int32(x)] conversions of an integer. *)
Definition uint32 (x : Z) : Z := x mod 2 ^ 32.
Definition byte (x : Z) : Z := x mod 2 ^ 8.
Definition int32 (x : Z) : Z := (x + 2 ^ 31) mod 2 ^ 32 - 2 ^ 31.

(** [[]byte(msg)]: a Go string is its sequence of bytes. *)
Definition bytes_of_string (s : string) : list Z :=
  map (fun c => Z.of_N (N_of_ascii c)) (list_ascii_of_string s).

(** ** hash/fnv: the 32-bit FNV-1 hash behind [fnv.New32()] *)
Module fnv.

Definition offset32 : Z := 2166136261.
Definition prime32 : Z := 16777619.

(** [fnv.New32()] *)
Definition New32 : Z := offset32.

(** [(s *sum32) Write(data)]: multiply by the prime, then xor the byte. *)
Definition Write (s : Z) (data : list Z) : Z :=
  fold_left (fun hash c => Z.lxor (uint32 (hash * prime32)) c) data s.

(** [(s *sum32) Sum(in)]: append the four digest bytes, big-endian. *)
Definition Sum (s : Z) (b : list Z) : list Z :=
  b ++ [byte (Z.shiftr s 24); byte (Z.shiftr s 16); byte (Z.shiftr s 8); byte s].

End fnv.

(** ** fmt.Sprintf("%x", []byte): two lower-case hex digits per byte *)

Definition hex_digit (n : Z) : ascii :=
  match n with
  | 0 => "0" | 1 => "1" | 2 => "2" | 3 => "3" | 4 => "4" | 5 => "5"
  | 6 => "6" | 7 => "7" | 8 => "8" | 9 => "9" | 10 => "a" | 11 => "b"
  | 12 => "c" | 13 => "d" | 14 => "e" | _ => "f"
  end%char.

Fixpoint Sprintf_x (bs : list Z) : string :=
  match bs with
  | [] => EmptyString
  | b :: bs' => String (hex_digit (b / 16)) (String (hex_digit (b mod 16)) (Sprintf_x bs'))
  end.

(** Lines 143-147 of [main]: a fresh hasher per iteration, the message
    bytes written to it, the digest rendered in hexadecimal. *)
Definition checksum (msg : string) : list Z :=
  let h := fnv.New32 in
  let h := fnv.Write h (bytes_of_string msg) in
  fnv.Sum h [].

Definition cache_key (msg : string) : string := Sprintf_x (checksum msg).

(** The digest itself, before it is rendered. *)
Definition digest (msg : string) : Z := fnv.Write fnv.New32 (bytes_of_string msg).

(** Reading a hexadecimal string back, most significant digit first. *)
Definition unhex (c : ascii) : option Z :=
  let n := Z.of_N (N_of_ascii c) in
  if (48 <=? n) && (n <=? 57) then Some (n - 48)
  else if (97 <=? n) && (n <=? 102) then Some (n - 87)
  else None.

Fixpoint parse_hex_from (acc : Z) (s : string) : option Z :=
  match s with
  | EmptyString => Some acc
  | String c s' =>
      match unhex c with
      | Some d => parse_hex_from (acc * 16 + d) s'
      | None => None
      end
  end.

Definition parse_hex (s : string) : option Z := parse_hex_from 0 s.

(** ** The cache package: a byte-bounded LRU cache *)

(** The [Value] interface of the cache package: a cached value reports
    its size in bytes. *)
Class Value (V : Type) := Size : V → Z.

Module cache.
Section LRU.
Context {V : Type} `{Value V}.

(** Modelled from the spec: the package [cache] imported by
    [emdr-relay-go.go] ([NewLRUCache], [Get], [Set], the last written
    [Set_] here) is not among the sources.  Section 4.1 of the
    specification gives its contract: [Get] reports presence and promotes a hit to most-recently-used, with no
    effect on a miss; [Set] inserts the entry as most-recently-used
    (promoting without growth when the key exists) and evicts
    least-recently-used entries one at a time until the size is back
    within the capacity.  The capacity is the byte budget handed to
    [NewLRUCache]; the size is the sum of the entries' [Size]s.  The
    table lists the entries from most to least recently used. *)
Record LRUCache := mkLRU {
  table : list (string * V);
  capacity : Z
}.

(** Modelled from the spec: [NewLRUCache] is missing; the cache is created
    once, empty, with the given budget. *)
Definition NewLRUCache (capacity : Z) : LRUCache := mkLRU [] capacity.

Fixpoint assoc (k : string) (t : list (string * V)) : option V :=
  match t with
  | [] => None
  | (k', v) :: t' => if decide (k' = k) then Some v else assoc k t'
  end.

Definition remove (k : string) (t : list (string * V)) : list (string * V) :=
  filter (λ e, e.1 ≠ k) t.

(** Bytes in use. *)
Definition bytes (t : list (string * V)) : Z :=
  foldr (λ e acc, Size e.2 + acc) 0 t.

Definition size (c : LRUCache) : Z := bytes (table c).

(** Modelled from the spec: the eviction of the missing [Set]; on the
    table read from its least-recently-used end, entries are dropped one
    at a time for as long as the size exceeds the capacity. *)
Fixpoint evict (cap : Z) (lru_first : list (string * V)) : list (string * V) :=
  match lru_first with
  | [] => []
  | e :: rest => if cap <? bytes (e :: rest) then evict cap rest else e :: rest
  end.

Definition checkCapacity (cap : Z) (t : list (string * V)) : list (string * V) :=
  reverse (evict cap (reverse t)).

(** Modelled from the spec: [Get] is missing; a hit returns the value and
    promotes the entry to most-recently-used, a miss has no effect. *)
Definition Get (k : string) (c : LRUCache) : option V * LRUCache :=
  match assoc k (table c) with
  | Some v => (Some v, mkLRU ((k, v) :: remove k (table c)) (capacity c))
  | None => (None, c)
  end.

(** Modelled from the spec: [Set] is missing; the entry becomes the
    most-recently-used one, replacing an entry of the same key, and the
    least-recently-used entries are evicted until the size fits. *)
Definition Set_ (k : string) (v : V) (c : LRUCache) : LRUCache :=
  mkLRU (checkCapacity (capacity c) ((k, v) :: remove k (table c))) (capacity c).

(** Presence of a key, and the number of entries held. *)
Definition has (k : string) (c : LRUCache) : bool := bool_decide (is_Some (assoc k (table c))).
Definition count (c : LRUCache) : nat := length (table c).

End LRU.
Arguments LRUCache V : clear implicits.
End cache.

(** ** The relay's own types *)

(** The presence of the cache value is all the relay needs. *)
Record CacheValue := { found : bool }.

(** [unsafe.Sizeof(CacheValue{})]: a struct of one [bool] occupies one byte. *)
Definition unsafe_Sizeof_CacheValue : Z := 1.

Definition cache_value_size : Z := unsafe_Sizeof_CacheValue.

(** The max cache size, in bytes. *)
Definition cache_size_limit : Z := cache_value_size * 1000.

(** [CacheValue] satisfies the [Value] interface. *)
#[export] Instance CacheValue_Value : Value CacheValue := λ self, cache_value_size.

(** [error]: an error value is represented by its message. *)
Definition error := string.

Module time.
(** A [time.Time], observed through [Unix()] only: seconds since the epoch. *)
Record Time := mk { Unix : Z }.
End time.

(** The [name]/[key] pairs of [uploadKeys]. *)
Module UploadKey.
Record t := mk { Name : string; Key : string }.
End UploadKey.

Module Generator.
Record t := mk { Name : string; Version : string }.
End Generator.

Module Row.
Record t := mk {
  Num0 : Z; Num1 : Z; Num2 : Z; Num3 : Z; Num4 : Z; Num5 : Z;
  Num6 : bool; Num7 : time.Time; Num8 : Z; Num9 : Z; Num10 : Z
}.
End Row.

Module Rowset.
Record t := mk {
  GeneratedAt : time.Time;
  RegionID : Z;
  TypeID : Z;
  Rows : list Row.t
}.
End Rowset.

Module EMDRMsg.
Record t := mk {
  ResultType : string;
  Version : string;
  UploadKeys : list UploadKey.t;
  Generator : Generator.t;
  CurrentTime : time.Time;
  Columns : list string;
  Rowsets : list Rowset.t
}.
(** [var m EMDRMsg]: the zero value. *)
Definition zero : t :=
  mk "" "" [] (Generator.mk "" "") (time.mk 0) [] [].
End EMDRMsg.

Module Configuration.
Record t := mk {
  URI : string;
  Cluster : string;
  Bucket : string;
  RelayList : list string;
  CouchbaseCache : bool
}.
End Configuration.

Module EMDRDoc.
Record t := mk {
  Region : Z;
  ItemID : Z;
  InsertTime : Z;
  UploadKeys : list UploadKey.t;
  ResultType : string
}.
End EMDRDoc.

(** [strconv.Itoa]: the decimal rendering of an integer. *)
Definition strconv_Itoa (i : Z) : string := NilZero.string_of_int (Z.to_int i).

(** ** The environment of the relay

    What [main] obtains from its collaborators: the loaded configuration,
    the zlib reader and JSON decoder of the Go library, and the wall
    clock, whose [n]-th reading is [time_Now n]. *)
Record Env := mkEnv {
  configuration : Configuration.t;
  zlib_reader : Type;
  zlib_NewReader : string → zlib_reader + error;
  ioutil_ReadAll : zlib_reader → list Z * option error;
  json_Unmarshal : list Z → EMDRMsg.t → EMDRMsg.t * option error;
  time_Now : nat → time.Time
}.

(** ** The state of the process and its observable events *)

Inductive Event :=
| Println (s : string)
| CacheGet (key : string) (hit : bool)
| CacheSet (key : string)
| Send (msg : string)
| BucketSet (key : string) (val : EMDRDoc.t)
| Fatal (err : error).

(** [lru] is the cache, [outbound] the messages handed to the PUB socket
    (oldest first), [bucket] the document store, [trace] every event so
    far in order, [ticks] the number of clock readings taken. *)
Record World := mkWorld {
  lru : cache.LRUCache CacheValue;
  outbound : list string;
  bucket : gmap string EMDRDoc.t;
  trace : list Event;
  ticks : nat
}.

(** A computation either carries on with a value or has left the process
    through [os.Exit]. *)
Inductive Result (A : Type) :=
| Ok (a : A) (w : World)
| Exit (code : Z) (w : World).
Arguments Ok {A} a w.
Arguments Exit {A} code w.

Definition world_of {A} (r : Result A) : World :=
  match r with Ok _ w => w | Exit _ w => w end.

Definition running {A} (r : Result A) : bool :=
  match r with Ok _ _ => true | Exit _ _ => false end.

Definition M (A : Type) : Type := World → Result A.

#[export] Instance M_ret : MRet M := λ A a w, Ok a w.

#[export] Instance M_bind : MBind M := λ A B f c w,
  match c w with
  | Ok a w' => f a w'
  | Exit code w' => Exit code w'
  end.

Definition emit (e : Event) (w : World) : World :=
  mkWorld (lru w) (outbound w) (bucket w) (trace w ++ [e]) (ticks w).

Definition println (s : string) : M unit :=
  λ w, Ok tt (emit (Println s) w).

(** [log.Fatal(err)]: print, then [os.Exit(1)]. *)
Definition log_Fatal {A} (err : error) : M A :=
  λ w, Exit 1 (emit (Fatal err) w).

(** [cache.Get(key)] on the process-wide cache. *)
Definition cache_Get (key : string) : M (option CacheValue * bool) :=
  λ w, let '(item, c) := cache.Get key (lru w) in
       let hit := bool_decide (is_Some item) in
       Ok (item, hit)
          (emit (CacheGet key hit) (mkWorld c (outbound w) (bucket w) (trace w) (ticks w))).

(** [cache.Set(key, value)] on the process-wide cache. *)
Definition cache_Set (key : string) (value : CacheValue) : M unit :=
  λ w, Ok tt
          (emit (CacheSet key)
             (mkWorld (cache.Set_ key value (lru w)) (outbound w) (bucket w) (trace w) (ticks w))).

(** [sender.Send(msg, 0)] *)
Definition sender_Send (msg : string) : M unit :=
  λ w, Ok tt
          (emit (Send msg) (mkWorld (lru w) (outbound w ++ [msg]) (bucket w) (trace w) (ticks w))).

(** [b.Set(key, val)]: an upsert into the bucket. *)
Definition b_Set (key : string) (val : EMDRDoc.t) : M unit :=
  λ w, Ok tt
          (emit (BucketSet key val)
             (mkWorld (lru w) (outbound w) (<[key := val]> (bucket w)) (trace w) (ticks w))).

(** [for _, x := range l { body }] *)
Fixpoint for_range {A} (l : list A) (body : A → M unit) : M unit :=
  match l with
  | [] => mret tt
  | x :: l' => body x ;; for_range l' body
  end.

(** ** The relay *)

Section Relay.
Variable env : Env.

(** [time.Now()]: the next reading of the wall clock. *)
Definition time_Now_ : M time.Time :=
  λ w, Ok (time_Now env (ticks w))
          (mkWorld (lru w) (outbound w) (bucket w) (trace w) (S (ticks w))).

(** [ZlibDecode]: the reader is drained only when it could be opened;
    otherwise [decoded] stays nil and the error of [zlib.NewReader] is
    returned. *)
Definition ZlibDecode (encoded : string) : list Z * option error :=
  match zlib_NewReader env encoded with
  | inl pipeline => ioutil_ReadAll env pipeline
  | inr err => ([], Some err)
  end.

(** The key under which a rowset is stored (lines 176-183). *)
Definition document_key (m : EMDRMsg.t) (element : Rowset.t) : string :=
  let region_string := strconv_Itoa (Rowset.RegionID element) in
  let type_string := strconv_Itoa (Rowset.TypeID element) in
  let buffer := "" in
  let buffer := buffer +:+ region_string in
  let buffer := buffer +:+ "-" in
  let buffer := buffer +:+ type_string in
  let buffer := buffer +:+ "-" in
  let buffer := buffer +:+ EMDRMsg.ResultType m in
  buffer.

(** The document of line 175; its insertion time is a clock reading
    narrowed to 32 bits. *)
Definition new_doc (m : EMDRMsg.t) (element : Rowset.t) (now : time.Time) : EMDRDoc.t :=
  EMDRDoc.mk (Rowset.RegionID element) (Rowset.TypeID element)
    (int32 (time.Unix now)) (EMDRMsg.UploadKeys m) (EMDRMsg.ResultType m).

(** The test of line 174.  The clock reading is narrowed to 32 bits and
    the subtraction is carried out at that width. *)
Definition in_window (element : Rowset.t) (now : time.Time) : bool :=
  int32 (int32 (time.Unix now) - 3600) <=? time.Unix (Rowset.GeneratedAt element).

(** The body of the loop over the rowsets (lines 174-185). *)
Definition persist_rowset (m : EMDRMsg.t) (element : Rowset.t) : M unit :=
  now ← time_Now_;
  if in_window element now then
    now' ← time_Now_;
    let val := new_doc m element now' in
    b_Set (document_key m element) val
  else mret tt.

(** Lines 164-186: the decode-and-persist path of a forwarded message.
    The flag is read from the loaded configuration. *)
Definition decode_and_persist (msg : string) : M unit :=
  if bool_decide (Configuration.CouchbaseCache (configuration env) = false) then
    mret tt (* continue *)
  else
    let '(decoded, err) := ZlibDecode msg in
    match err with
    | Some e => log_Fatal e
    | None =>
        let '(m, _) := json_Unmarshal env decoded EMDRMsg.zero in
        for_range (EMDRMsg.Rowsets m) (persist_rowset m)
    end.

(** One turn of the [for] loop of [main] (lines 138-186), on what
    [receiver.Recv(0)] returned. *)
Definition iteration (recv : string * option error) : M unit :=
  let '(msg, zmq_err) := recv in
  match zmq_err with
  | Some e => println ("RECV ERROR: " +:+ e)
  | None => mret tt
  end ;;
  let cache_key := cache_key msg in
  '(cache_item, cache_hit) ← cache_Get cache_key;
  if (cache_hit : bool) then
    (* We've already seen this before, ignore it. *)
    mret tt (* continue *)
  else
    let cache_item := {| found := true |} in
    (* Insert the cache entry to prevent future re-sends of this message. *)
    cache_Set cache_key cache_item ;;
    (* Send the message to subscribers. *)
    sender_Send msg ;;
    decode_and_persist msg.

(** The loop, over the successive results of [receiver.Recv(0)]; when
    they are used up the process is blocked in [Recv]. *)
Definition main_loop (recvs : list (string * option error)) : M unit :=
  for_range recvs iteration.

(** The world in which the loop starts: a new cache of [cache_size_limit]
    bytes, nothing sent, the bucket as it is found. *)
Definition initial_world (b : gmap string EMDRDoc.t) : World :=
  mkWorld (cache.NewLRUCache cache_size_limit) [] b [] 0.

(** [main], from the banner to the loop.  The goroutine started by
    [go periodic_exiter()] (line 135) is not part of this definition: its
    [os.Exit(0)] is an exit of the process that no statement below speaks
    of. *)
Definition main (b : gmap string EMDRDoc.t) (recvs : list (string * option error)) : Result unit :=
  (println "=====================[ emdr-relay-go ]=====================" ;;
   println "Starting emdr-relay-go 1.1..." ;;
   println "Listening on port 8050." ;;
   println "===========================================================" ;;
   main_loop recvs) (initial_world b).

End Relay.

(** ** Reading the trace *)

(** The upserts recorded in a trace, and their effect on a bucket. *)
Definition store_writes (tr : list Event) : list (string * EMDRDoc.t) :=
  omap (λ e, match e with BucketSet k v => Some (k, v) | _ => None end) tr.

Definition apply_writes (ws : list (string * EMDRDoc.t)) (b : gmap string EMDRDoc.t)
  : gmap string EMDRDoc.t :=
  foldl (λ b kv, <[kv.1 := kv.2]> b) b ws.

(** The messages handed to the PUB socket according to a trace. *)
Definition sends (tr : list Event) : list string :=
  omap (λ e, match e with Send m => Some m | _ => None end) tr.

(** The key the specification assigns to a document: the decimal region
    id, a hyphen, the decimal type id, a hyphen, the result-type tag. *)
Definition key_of_doc (d : EMDRDoc.t) : string :=
  strconv_Itoa (EMDRDoc.Region d) +:+ "-" +:+ strconv_Itoa (EMDRDoc.ItemID d)
  +:+ "-" +:+ EMDRDoc.ResultType d.

(** The events of the persistence path: upserts under the document's own
    key, and the fatal exit. *)
Definition persist_event (e : Event) : Prop :=
  match e with
  | BucketSet k d => k = key_of_doc d
  | Fatal _ => True
  | _ => False
  end.

(** The world when the loop is entered, the banner printed. *)
Definition banner_world (b : gmap string EMDRDoc.t) : World :=
  mkWorld (cache.NewLRUCache cache_size_limit) [] b
    [Println "=====================[ emdr-relay-go ]=====================";
     Println "Starting emdr-relay-go 1.1...";
     Println "Listening on port 8050.";
     Println "==========================================================="] 0.

(** What a receive error adds to the console. *)
Definition recv_log (zmq_err : option error) : list Event :=
  match zmq_err with
  | Some e => [Println ("RECV ERROR: " +:+ e)]
  | None => []
  end.

(** The keys looked up in the cache according to a trace. *)
Definition looked_up (tr : list Event) : list string :=
  omap (λ e, match e with CacheGet k _ => Some k | _ => None end) tr.

(** The events that took the process from [w] to [w']. *)
Definition since (w w' : World) : list Event := drop (length (trace w)) (trace w').

(** Calls on the relay's cache, to speak of every sequence of them. *)
Inductive cache_call :=
| CallGet (k : string)
| CallSet (k : string) (v : CacheValue).

Definition call (c : cache.LRUCache CacheValue) (o : cache_call) : cache.LRUCache CacheValue :=
  match o with
  | CallGet k => (cache.Get k c).2
  | CallSet k v => cache.Set_ k v c
  end.

Definition calls (os : list cache_call) (c : cache.LRUCache CacheValue)
  : cache.LRUCache CacheValue :=
  foldl call c os.

(** ** A concrete environment

    Used to run the relay on examples: persistence switched by [persist],
    a clock that always reads [now], a decompressor that accepts the
    messages starting with the byte 0x78 (the letter x, the first byte of
    a zlib stream) and yields the rest, and a decoder that always yields
    [envelope]. *)
Definition example_env (persist : bool) (now : Z) (envelope : EMDRMsg.t) : Env :=
  mkEnv (Configuration.mk "" "" "" [] persist) string
    (λ s, match s with
          | String "x" rest => inl rest
          | _ => inr "zlib: invalid header"
          end)
    (λ r, (bytes_of_string r, None))
    (λ _ _, (envelope, None))
    (λ _, time.mk now).

Definition example_envelope (rowsets : list Rowset.t) : EMDRMsg.t :=
  EMDRMsg.mk "history" "0.1" [UploadKey.mk "EMDR" "abc"] (Generator.mk "gen" "1.0")
    (time.mk 0) [] rowsets.

(** In a trace, every [Send] comes right after the [CacheSet] of the
    fingerprint of the message sent. *)
Definition sets_precede_sends (tr : list Event) : Prop :=
  ∀ i msg, tr !! i = Some (Send msg) →
    ∃ j, i = S j ∧ tr !! j = Some (CacheSet (cache_key msg)).

(** The keys entered in the cache according to a trace. *)
Definition cache_sets (tr : list Event) : list string :=
  omap (λ e, match e with CacheSet k => Some k | _ => None end) tr.

(** The results of [receiver.Recv(0)] with their errors forgotten. *)
Definition without_errors (recvs : list (string * option error)) : list (string * option error) :=
  map (λ r, (r.1, None)) recvs.

(** Two worlds that differ in their traces at most. *)
Definition same_state (w1 w2 : World) : Prop :=
  lru w1 = lru w2 ∧ outbound w1 = outbound w2 ∧ bucket w1 = bucket w2 ∧ ticks w1 = ticks w2.

(** [document_of env msg kd]: the upsert [kd] is what the persistence path
    makes of a rowset of the envelope decoded from [msg]: the message
    decompresses, the rowset is one of the envelope's, it passes the test
    of line 174 at some clock reading, and the document is stamped with
    the next reading. *)
Definition document_of (env : Env) (msg : string) (kd : string * EMDRDoc.t) : Prop :=
  ∃ decoded element t,
    ZlibDecode env msg = (decoded, None) ∧
    element ∈ EMDRMsg.Rowsets (json_Unmarshal env decoded EMDRMsg.zero).1 ∧
    in_window element (time_Now env t) = true ∧
    kd = (document_key (json_Unmarshal env decoded EMDRMsg.zero).1 element,
          new_doc (json_Unmarshal env decoded EMDRMsg.zero).1 element (time_Now env (S t))).

(** Strings of decimal digits, as [strconv.Itoa] writes after the sign. *)
Definition is_digit (c : ascii) : bool :=
  let n := Z.of_N (N_of_ascii c) in (48 <=? n) && (n <=? 57).

Fixpoint all_digits (s : string) : bool :=
  match s with
  | EmptyString => true
  | String c s' => is_digit c && all_digits s'
  end.

(** The environment whose JSON decoder yields the same envelopes and never
    reports an error. *)
Definition without_json_errors (env : Env) : Env :=
  mkEnv (configuration env) (zlib_reader env) (zlib_NewReader env) (ioutil_ReadAll env)
    (λ data m, ((json_Unmarshal env data m).1, None)) (time_Now env).

(** In a trace, every upsert comes after the [Send] of a message it is the
    document of. *)
Definition sends_precede_writes (env : Env) (tr : list Event) : Prop :=
  ∀ i k d, tr !! i = Some (BucketSet k d) →
    ∃ j msg, (j < i)%nat ∧ tr !! j = Some (Send msg) ∧ document_of env msg (k, d).

(** The world of a turn of the loop on a new message, between lines 159
    and 163: [cache.Set] has returned, [sender.Send] has not been called
    yet. *)
Definition world_at_set (msg : string) (zmq_err : option error) (w : World) : World :=
  mkWorld (cache.Set_ (cache_key msg) {| found := true |} (lru w)) (outbound w) (bucket w)
    (trace w ++ recv_log zmq_err
       ++ [CacheGet (cache_key msg) false; CacheSet (cache_key msg)])
    (ticks w).

(** The number of clock readings taken once the loop of lines 173-186 has
    gone over [rs], having started at reading [t]: one reading per rowset
    for the test, one more for each rowset that passes it. *)
Fixpoint reading_after (env : Env) (rs : list Rowset.t) (t : nat) : nat :=
  match rs with
  | [] => t
  | element :: rs' =>
      reading_after env rs' (if in_window element (time_Now env t) then S (S t) else S t)
  end.

(** The concrete environment with a clock that advances by one second at
    every reading, from [start]. *)
Definition ticking_env (persist : bool) (start : Z) (envelope : EMDRMsg.t) : Env :=
  mkEnv (Configuration.mk "" "" "" [] persist) string
    (λ s, match s with
          | String "x" rest => inl rest
          | _ => inr "zlib: invalid header"
          end)
    (λ r, (bytes_of_string r, None))
    (λ _ _, (envelope, None))
    (λ n, time.mk (start + Z.of_nat n)).

(** * Properties *)

(** ** Fingerprints *)

Example cache_key_empty : cache_key "" = "811c9dc5".
Proof. reflexivity. Qed.

Example cache_key_a : cache_key "a" = "050c5d7e".
Proof. vm_compute. reflexivity. Qed.

Example Itoa_pos : strconv_Itoa 10000210 = "10000210".
Proof. reflexivity. Qed.

Example Itoa_zero_neg : strconv_Itoa 0 = "0" ∧ strconv_Itoa (-34) = "-34".
Proof. split; reflexivity. Qed.

Lemma Sprintf_x_length (bs : list Z) :
  String.length (Sprintf_x bs) = (2 * length bs)%nat.
Proof.
  induction bs as [|b bs IH]; [reflexivity|].
  cbn [Sprintf_x String.length length]. rewrite IH. lia.
Qed.

Lemma checksum_eq (msg : string) :
  checksum msg =
  [byte (Z.shiftr (digest msg) 24); byte (Z.shiftr (digest msg) 16);
   byte (Z.shiftr (digest msg) 8); byte (digest msg)].
Proof. reflexivity. Qed.

Lemma cache_key_length (msg : string) : String.length (cache_key msg) = 8%nat.
Proof. unfold cache_key. rewrite Sprintf_x_length, checksum_eq. reflexivity. Qed.

Lemma lxor_range (n a b : Z) :
  0 ≤ n → 0 ≤ a < 2 ^ n → 0 ≤ b < 2 ^ n → 0 ≤ Z.lxor a b < 2 ^ n.
Proof.
  intros Hn Ha Hb.
  assert (Hx : 0 ≤ Z.lxor a b) by (apply Z.lxor_nonneg; lia).
  split; [exact Hx|].
  destruct (Z.eq_dec (Z.lxor a b) 0) as [->|Hne]; [lia|].
  assert (0 < n).
  { destruct (Z.eq_dec n 0) as [->|]; [|lia].
    assert (a = 0) as -> by (change (2 ^ 0) with 1 in Ha; lia).
    assert (b = 0) as -> by (change (2 ^ 0) with 1 in Hb; lia).
    contradiction Hne; reflexivity. }
  apply Z.log2_lt_pow2; [lia|].
  pose proof (Z.log2_lxor a b ltac:(lia) ltac:(lia)) as Hl.
  assert (Z.log2 a < n).
  { destruct (Z.eq_dec a 0) as [->|]; [cbn; lia|]. apply Z.log2_lt_pow2; lia. }
  assert (Z.log2 b < n).
  { destruct (Z.eq_dec b 0) as [->|]; [cbn; lia|]. apply Z.log2_lt_pow2; lia. }
  lia.
Qed.

Lemma bytes_of_string_range (s : string) :
  Forall (λ c, 0 ≤ c < 2 ^ 8) (bytes_of_string s).
Proof.
  unfold bytes_of_string. apply Forall_map, Forall_forall. intros c _. cbn beta.
  pose proof (N_ascii_bounded c). lia.
Qed.

Lemma Write_range (data : list Z) (s : Z) :
  0 ≤ s < 2 ^ 32 → Forall (λ c, 0 ≤ c < 2 ^ 8) data →
  0 ≤ fnv.Write s data < 2 ^ 32.
Proof.
  revert s. induction data as [|c data IH]; intros s Hs Hd; [exact Hs|].
  inversion Hd as [|? ? Hc Hd']; subst.
  unfold fnv.Write. cbn [fold_left]. apply IH; [|exact Hd'].
  apply lxor_range; [lia| |lia].
  unfold uint32. apply Z.mod_pos_bound. lia.
Qed.

Lemma digest_range (msg : string) : 0 ≤ digest msg < 2 ^ 32.
Proof.
  apply Write_range; [|apply bytes_of_string_range].
  unfold fnv.New32, fnv.offset32. lia.
Qed.

Lemma unhex_hex_digit (n : Z) : 0 ≤ n < 16 → unhex (hex_digit n) = Some n.
Proof.
  intros Hn.
  assert (Hc : n = 0 ∨ n = 1 ∨ n = 2 ∨ n = 3 ∨ n = 4 ∨ n = 5 ∨ n = 6 ∨ n = 7 ∨
               n = 8 ∨ n = 9 ∨ n = 10 ∨ n = 11 ∨ n = 12 ∨ n = 13 ∨ n = 14 ∨ n = 15)
    by lia.
  repeat (destruct Hc as [->|Hc]; [reflexivity|]). subst. reflexivity.
Qed.

Lemma parse_hex_byte (acc b : Z) (s : string) :
  0 ≤ b < 2 ^ 8 →
  parse_hex_from acc (String (hex_digit (b / 16)) (String (hex_digit (b mod 16)) s))
  = parse_hex_from (acc * 256 + b) s.
Proof.
  intros Hb. cbn [parse_hex_from].
  rewrite !unhex_hex_digit by (try apply Z.mod_pos_bound; try split; try apply Z.div_pos;
                               try apply Z.div_lt_upper_bound; lia).
  f_equal. pose proof (Z.div_mod b 16 ltac:(lia)). lia.
Qed.

Lemma parse_hex_cache_key (msg : string) : parse_hex (cache_key msg) = Some (digest msg).
Proof.
  pose proof (digest_range msg) as Hd.
  unfold parse_hex, cache_key. rewrite checksum_eq. cbn [Sprintf_x].
  unfold byte. rewrite !parse_hex_byte by (apply Z.mod_pos_bound; lia).
  cbn [parse_hex_from]. f_equal.
  rewrite !Z.shiftr_div_pow2 by lia.
  change (2 ^ 8) with 256. change (2 ^ 16) with 65536. change (2 ^ 24) with 16777216.
  change (2 ^ 32) with 4294967296 in Hd.
  Z.div_mod_to_equations. lia.
Qed.

(** ** The cache *)

Section cache_properties.
Context {V : Type} `{Value V}.
Implicit Types (t : list (string * V)) (c : cache.LRUCache V) (k : string) (v : V).


Lemma remove_shrinks t k v :
  cache.assoc k t = Some v → (S (length (cache.remove k t)) ≤ length t)%nat.
Proof.
  unfold cache.remove. induction t as [|[k0 v0] t IH]; [discriminate|].
  cbn [cache.assoc]. rewrite filter_cons. cbn [fst length].
  destruct (decide (k0 = k)) as [->|Hne].
  - intros _. rewrite decide_False by (intros Hk; by apply Hk).
    pose proof (length_filter (λ e : string * V, e.1 ≠ k) t). lia.
  - intros Hk. rewrite decide_True by done. cbn [length]. apply IH in Hk. lia.
Qed.

Lemma Get_capacity c k : cache.capacity (cache.Get k c).2 = cache.capacity c.
Proof. unfold cache.Get. by destruct (cache.assoc k (cache.table c)). Qed.

Lemma Get_hit c k : (cache.Get k c).1 = cache.assoc k (cache.table c).
Proof. unfold cache.Get. by destruct (cache.assoc k (cache.table c)). Qed.



Lemma Get_count c k : (cache.count (cache.Get k c).2 ≤ cache.count c)%nat.
Proof.
  unfold cache.Get, cache.count.
  destruct (cache.assoc k (cache.table c)) as [v|] eqn:Hk; [|done].
  cbn [snd cache.table length]. by eapply remove_shrinks.
Qed.

Lemma bytes_app t1 t2 : cache.bytes (t1 ++ t2) = cache.bytes t1 + cache.bytes t2.
Proof.
  induction t1 as [|e t1 IH]; [reflexivity|].
  cbn [app]. unfold cache.bytes in *. cbn [foldr]. rewrite IH. lia.
Qed.

Lemma bytes_reverse t : cache.bytes (reverse t) = cache.bytes t.
Proof.
  induction t as [|e t IH]; [reflexivity|].
  rewrite reverse_cons, bytes_app, IH. unfold cache.bytes. cbn [foldr]. lia.
Qed.

(** Eviction stops as soon as the entries fit the budget... *)
Lemma evict_fits cap t : 0 ≤ cap → cache.bytes (cache.evict cap t) ≤ cap.
Proof.
  intros Hcap. induction t as [|e t IH]; [done|].
  cbn [cache.evict]. destruct (cap <? cache.bytes (e :: t)) eqn:Hlt; [exact IH|].
  by apply Z.ltb_ge.
Qed.

(** ... and never reaches a most-recently-used entry that fits by itself. *)
Lemma evict_keeps_last cap t e :
  Size e.2 ≤ cap → ∃ t', cache.evict cap (t ++ [e]) = t' ++ [e].
Proof.
  intros He. induction t as [|e0 t IH].
  - exists []. cbn [app cache.evict].
    rewrite (proj2 (Z.ltb_ge _ _)); [done|]. unfold cache.bytes. cbn [foldr]. lia.
  - cbn [app cache.evict]. destruct (cap <? _); [exact IH|]. by exists (e0 :: t).
Qed.

Lemma checkCapacity_fits cap t : 0 ≤ cap → cache.bytes (cache.checkCapacity cap t) ≤ cap.
Proof. intros Hcap. unfold cache.checkCapacity. rewrite bytes_reverse. by apply evict_fits. Qed.

Lemma checkCapacity_keeps_first cap t k v :
  Size v ≤ cap → ∃ t', cache.checkCapacity cap ((k, v) :: t) = (k, v) :: t'.
Proof.
  intros Hv. unfold cache.checkCapacity. rewrite reverse_cons.
  destruct (evict_keeps_last cap (reverse t) (k, v) Hv) as [t' ->].
  exists (reverse t'). by rewrite reverse_snoc.
Qed.

Lemma Set_capacity c k v : cache.capacity (cache.Set_ k v c) = cache.capacity c.
Proof. reflexivity. Qed.

Lemma Set_size c k v : 0 ≤ cache.capacity c → cache.size (cache.Set_ k v c) ≤ cache.capacity c.
Proof. intros Hcap. unfold cache.size, cache.Set_. cbn [cache.table]. by apply checkCapacity_fits. Qed.

(** An entry that fits the budget is present right after it was set. *)
Lemma Set_has c k v : Size v ≤ cache.capacity c → cache.has k (cache.Set_ k v c) = true.
Proof.
  intros Hv. unfold cache.has, cache.Set_. cbn [cache.table].
  destruct (checkCapacity_keeps_first (cache.capacity c) (cache.remove k (cache.table c)) k v Hv)
    as [t' ->].
  cbn [cache.assoc]. rewrite decide_True by done. by apply bool_decide_eq_true.
Qed.

(** With entries of one fixed positive size the byte budget is an entry
    budget. *)
Lemma bytes_uniform (sz : Z) t :
  (∀ v, Size v = sz) → cache.bytes t = sz * Z.of_nat (length t).
Proof.
  intros Hsz. induction t as [|e t IH]; [cbn; lia|].
  unfold cache.bytes in *. cbn [foldr length]. rewrite IH, Hsz. lia.
Qed.

Lemma Set_count_uniform (sz : Z) c k v :
  (∀ v, Size v = sz) → 0 < sz → 0 ≤ cache.capacity c →
  Z.of_nat (cache.count (cache.Set_ k v c)) ≤ cache.capacity c / sz.
Proof.
  intros Hsz Hpos Hcap. pose proof (Set_size c k v Hcap) as Hs.
  unfold cache.size in Hs. rewrite (bytes_uniform sz) in Hs by done.
  unfold cache.count. apply Z.div_le_lower_bound; lia.
Qed.

End cache_properties.

(** ** The relay loop *)

Lemma store_writes_app (tr1 tr2 : list Event) :
  store_writes (tr1 ++ tr2) = store_writes tr1 ++ store_writes tr2.
Proof. apply omap_app. Qed.

Lemma sends_app (tr1 tr2 : list Event) : sends (tr1 ++ tr2) = sends tr1 ++ sends tr2.
Proof. apply omap_app. Qed.

Lemma apply_writes_app (ws1 ws2 : list (string * EMDRDoc.t)) (b : gmap string EMDRDoc.t) :
  apply_writes (ws1 ++ ws2) b = apply_writes ws2 (apply_writes ws1 b).
Proof. apply foldl_app. Qed.

Lemma string_app_cons (c : ascii) (s1 s2 : string) :
  String c s1 +:+ s2 = String c (s1 +:+ s2).
Proof. reflexivity. Qed.

Lemma string_app_nil_l (s : string) : "" +:+ s = s.
Proof. reflexivity. Qed.

Lemma string_app_assoc (s1 s2 s3 : string) : (s1 +:+ s2) +:+ s3 = s1 +:+ (s2 +:+ s3).
Proof.
  induction s1 as [|c s1 IH]; [by rewrite !string_app_nil_l|].
  by rewrite !string_app_cons, IH.
Qed.

Section relay_properties.
Variable env : Env.

Lemma main_eq b recvs : main env b recvs = main_loop env recvs (banner_world b).
Proof. reflexivity. Qed.

Lemma main_loop_cons r recvs w :
  main_loop env (r :: recvs) w =
  match iteration env r w with
  | Ok _ w' => main_loop env recvs w'
  | Exit code w' => Exit code w'
  end.
Proof. reflexivity. Qed.

(** The rowset body never leaves the process; it writes exactly when the
    rowset passes the test of line 174. *)
Lemma persist_rowset_eq m element w :
  persist_rowset env m element w =
  Ok tt (if in_window element (time_Now env (ticks w)) then
           mkWorld (lru w) (outbound w)
             (<[document_key m element := new_doc m element (time_Now env (S (ticks w)))]>
                (bucket w))
             (trace w ++ [BucketSet (document_key m element)
                            (new_doc m element (time_Now env (S (ticks w))))])
             (S (S (ticks w)))
         else mkWorld (lru w) (outbound w) (bucket w) (trace w) (S (ticks w))).
Proof.
  unfold persist_rowset, mbind, M_bind, time_Now_. cbn [ticks].
  by destruct (in_window element (time_Now env (ticks w))).
Qed.

Lemma document_key_eq m element :
  document_key m element =
  strconv_Itoa (Rowset.RegionID element) +:+ "-" +:+ strconv_Itoa (Rowset.TypeID element)
  +:+ "-" +:+ EMDRMsg.ResultType m.
Proof. unfold document_key. cbv zeta. by rewrite string_app_nil_l, !string_app_assoc. Qed.

Lemma document_key_of_doc m element now :
  document_key m element = key_of_doc (new_doc m element now).
Proof. by rewrite document_key_eq. Qed.

(** What the loop over the rowsets leaves behind. *)
Lemma for_range_persist m rs w :
  ∃ w' evs,
    for_range rs (persist_rowset env m) w = Ok tt w' ∧
    lru w' = lru w ∧ outbound w' = outbound w ∧
    trace w' = trace w ++ evs ∧
    bucket w' = apply_writes (store_writes evs) (bucket w) ∧
    sends evs = [] ∧ Forall persist_event evs.
Proof.
  revert w. induction rs as [|element rs IH]; intros w.
  - exists w, []. rewrite app_nil_r. by repeat split.
  - cbn [for_range]. unfold mbind, M_bind. rewrite persist_rowset_eq.
    destruct (in_window element (time_Now env (ticks w))).
    + match goal with |- context [for_range rs _ ?w1] => destruct (IH w1) as (w' & evs & -> & ? & ? & Htr & Hb & H1 & ?) end.
      cbn [lru outbound trace bucket] in *.
      eexists w', (_ :: evs). split_and!; try done.
      * by rewrite Htr, <- app_assoc.
      * rewrite Hb. reflexivity.
      * exact H1.
      * constructor; [apply document_key_of_doc|done].
    + match goal with |- context [for_range rs _ ?w1] => destruct (IH w1) as (w' & evs & -> & ? & ? & Htr & Hb & ? & ?) end.
      cbn [lru outbound trace bucket] in *.
      by exists w', evs.
Qed.

Lemma decode_and_persist_spec msg w :
  ∃ evs,
    let w' := world_of (decode_and_persist env msg w) in
    lru w' = lru w ∧ outbound w' = outbound w ∧
    trace w' = trace w ++ evs ∧
    bucket w' = apply_writes (store_writes evs) (bucket w) ∧
    sends evs = [] ∧ Forall persist_event evs.
Proof.
  unfold decode_and_persist. case_bool_decide.
  - exists []. cbn. rewrite app_nil_r. by repeat split.
  - destruct (ZlibDecode env msg) as [decoded [e|]].
    + exists [Fatal e]. cbn. repeat split; try done. by repeat constructor.
    + destruct (json_Unmarshal env decoded EMDRMsg.zero) as [m o].
      destruct (for_range_persist m (EMDRMsg.Rowsets m) w) as (w' & evs & -> & ?).
      by exists evs.
Qed.

(** One turn of the loop, by cases on the lookup. *)
Lemma iteration_hit msg zmq_err w :
  cache.has (cache_key msg) (lru w) = true →
  iteration env (msg, zmq_err) w =
  Ok tt (mkWorld (cache.Get (cache_key msg) (lru w)).2 (outbound w) (bucket w)
           (trace w ++ recv_log zmq_err ++ [CacheGet (cache_key msg) true]) (ticks w)).
Proof.
  intros Hhit. apply bool_decide_eq_true in Hhit.
  unfold iteration, mbind, M_bind, cache_Get, println, mret, M_ret, emit.
  destruct zmq_err as [e|]; cbn [lru outbound bucket trace ticks recv_log];
    destruct (cache.Get (cache_key msg) (lru w)) as [item c] eqn:HG;
    pose proof (Get_hit (lru w) (cache_key msg)) as Hitem; rewrite HG in Hitem;
    cbn [fst] in Hitem; rewrite <- Hitem in Hhit;
    rewrite (bool_decide_eq_true_2 _ Hhit); cbn [snd lru outbound bucket trace ticks];
    by rewrite <- ?app_assoc.
Qed.

Lemma iteration_miss msg zmq_err w :
  cache.has (cache_key msg) (lru w) = false →
  iteration env (msg, zmq_err) w =
  decode_and_persist env msg
    (mkWorld (cache.Set_ (cache_key msg) {| found := true |} (lru w))
       (outbound w ++ [msg]) (bucket w)
       (trace w ++ recv_log zmq_err
          ++ [CacheGet (cache_key msg) false; CacheSet (cache_key msg); Send msg])
       (ticks w)).
Proof.
  intros Hmiss. apply bool_decide_eq_false in Hmiss.
  assert (HG : cache.Get (cache_key msg) (lru w) = (None, lru w)).
  { unfold cache.Get. destruct (cache.assoc _ _) eqn:Ha; [|done]. by destruct Hmiss. }
  unfold iteration, mbind, M_bind, cache_Get, cache_Set, sender_Send, println, mret, M_ret, emit.
  destruct zmq_err as [e|]; cbn [lru outbound bucket trace ticks recv_log];
    rewrite HG; rewrite bool_decide_eq_false_2 by (by intros [? ?]);
    cbn [lru outbound bucket trace ticks]; by rewrite <- ?app_assoc.
Qed.

End relay_properties.

Lemma since_app (w w' : World) (evs : list Event) :
  trace w' = trace w ++ evs → since w w' = evs.
Proof. intros E. unfold since. rewrite E. apply drop_app_length. Qed.

Lemma persist_events_quiet (evs : list Event) :
  Forall persist_event evs → looked_up evs = [] ∧ sends evs = [].
Proof.
  induction 1 as [|e evs He _ [IH1 IH2]]; [done|].
  destruct e; try done.
Qed.

(** What one turn of the loop adds to the trace and to the state. *)
Lemma iteration_spec (env : Env) (msg : string) (zmq_err : option error) (w : World) :
  let k := cache_key msg in
  let w' := world_of (iteration env (msg, zmq_err) w) in
  if cache.has k (lru w) then
    iteration env (msg, zmq_err) w = Ok tt w' ∧
    lru w' = (cache.Get k (lru w)).2 ∧ outbound w' = outbound w ∧ bucket w' = bucket w ∧
    ticks w' = ticks w ∧
    trace w' = trace w ++ recv_log zmq_err ++ [CacheGet k true]
  else
    ∃ evs,
      lru w' = cache.Set_ k {| found := true |} (lru w) ∧
      outbound w' = outbound w ++ [msg] ∧
      bucket w' = apply_writes (store_writes evs) (bucket w) ∧
      trace w' = trace w ++ recv_log zmq_err ++ [CacheGet k false; CacheSet k; Send msg] ++ evs ∧
      Forall persist_event evs.
Proof.
  intros k w'. subst w'. destruct (cache.has k (lru w)) eqn:Hk.
  - rewrite (iteration_hit env msg zmq_err w Hk). by cbn.
  - rewrite (iteration_miss env msg zmq_err w Hk).
    match goal with |- context [decode_and_persist env msg ?w1] =>
      destruct (decode_and_persist_spec env msg w1) as (evs & Hl & Ho & Ht & Hb & _ & Hev) end.
    cbn [lru outbound bucket trace] in *.
    exists evs. split_and!; try done.
    rewrite Ht. by rewrite <- !app_assoc.
Qed.

(** A property kept by every turn of the loop holds however long it runs. *)
Lemma main_loop_invariant (env : Env) (P : World → Prop) :
  (∀ r w, P w → P (world_of (iteration env r w))) →
  ∀ recvs w, P w → P (world_of (main_loop env recvs w)).
Proof.
  intros Hstep recvs. induction recvs as [|r recvs IH]; intros w HP; [exact HP|].
  rewrite main_loop_cons. specialize (Hstep r w HP).
  destruct (iteration env r w) as [[] w'|code w']; [by apply IH|exact Hstep].
Qed.

Lemma sets_precede_sends_app (tr1 tr2 : list Event) :
  sets_precede_sends tr1 → sets_precede_sends tr2 → sets_precede_sends (tr1 ++ tr2).
Proof.
  intros H1 H2 i msg Hi. rewrite lookup_app in Hi.
  destruct (tr1 !! i) as [e|] eqn:Hl.
  - injection Hi as ->. destruct (H1 i msg Hl) as (j & -> & Hj).
    exists j. split; [done|]. by rewrite lookup_app, Hj.
  - apply lookup_ge_None in Hl.
    destruct (H2 _ msg Hi) as (j & Hij & Hj).
    exists (length tr1 + j)%nat. split; [lia|].
    rewrite lookup_app_r by lia. by replace (length tr1 + j - length tr1)%nat with j by lia.
Qed.

Lemma sets_precede_sends_quiet (evs : list Event) :
  (∀ msg, Send msg ∉ evs) → sets_precede_sends evs.
Proof. intros Hq i msg Hi. destruct (Hq msg). by eapply list_elem_of_lookup_2. Qed.

Lemma persist_event_not_send (evs : list Event) (msg : string) :
  Forall persist_event evs → Send msg ∉ evs.
Proof. intros Hev Hin. by apply (proj1 (Forall_forall _ _) Hev) in Hin. Qed.

Lemma iteration_sets_precede_sends (env : Env) r w :
  sets_precede_sends (trace w) ∧ outbound w = sends (trace w) →
  sets_precede_sends (trace (world_of (iteration env r w))) ∧
  outbound (world_of (iteration env r w)) = sends (trace (world_of (iteration env r w))).
Proof.
  intros [Hsps Hout]. destruct r as [msg zmq_err].
  assert (Hlog : sets_precede_sends (recv_log zmq_err) ∧ sends (recv_log zmq_err) = []).
  { split; [|by destruct zmq_err].
    apply sets_precede_sends_quiet. intros m Hin.
    destruct zmq_err; cbn in Hin; [apply list_elem_of_singleton in Hin; done|by apply not_elem_of_nil in Hin]. }
  destruct Hlog as [Hlog Hlog'].
  pose proof (iteration_spec env msg zmq_err w) as Hspec. cbv zeta in Hspec.
  destruct (cache.has (cache_key msg) (lru w)).
  - destruct Hspec as (_ & _ & Ho & _ & _ & ->). split.
    + repeat apply sets_precede_sends_app; try done.
      apply sets_precede_sends_quiet. intros m Hin. apply list_elem_of_singleton in Hin. done.
    + rewrite Ho, !sends_app, Hlog', Hout. cbn. symmetry. apply app_nil_r.
  - destruct Hspec as (evs & _ & Ho & _ & -> & Hev). split.
    + repeat apply sets_precede_sends_app; try done.
      * intros i m Hi. destruct i as [|[|[|i]]]; try done.
        injection Hi as ->. by exists 1%nat.
      * apply sets_precede_sends_quiet. intros m. by apply persist_event_not_send.
    + rewrite Ho, !sends_app, Hlog', Hout.
      by destruct (persist_events_quiet evs Hev) as [_ ->].
Qed.

Lemma outbound_is_sends (env : Env) b recvs :
  sets_precede_sends (trace (world_of (main env b recvs))) ∧
  outbound (world_of (main env b recvs)) = sends (trace (world_of (main env b recvs))).
Proof.
  rewrite main_eq.
  apply (main_loop_invariant env
           (λ w, sets_precede_sends (trace w) ∧ outbound w = sends (trace w))).
  - intros r w. apply iteration_sets_precede_sends.
  - split; [|done]. apply sets_precede_sends_quiet. intros m Hin.
    cbn in Hin. repeat (apply elem_of_cons in Hin as [?|Hin]; [done|]).
    by apply not_elem_of_nil in Hin.
Qed.

(** The cache of the relay is always the result of a sequence of calls on
    the cache [main] created. *)
Lemma calls_snoc os o c : calls (os ++ [o]) c = call (calls os c) o.
Proof. unfold calls. by rewrite foldl_app. Qed.

Lemma main_cache_calls (env : Env) b recvs :
  ∃ os, lru (world_of (main env b recvs)) = calls os (cache.NewLRUCache cache_size_limit).
Proof.
  rewrite main_eq.
  apply (main_loop_invariant env
           (λ w, ∃ os, lru w = calls os (cache.NewLRUCache cache_size_limit))).
  - intros [msg zmq_err] w [os Hos].
    pose proof (iteration_spec env msg zmq_err w) as Hspec. cbv zeta in Hspec.
    destruct (cache.has (cache_key msg) (lru w)).
    + destruct Hspec as (_ & -> & _). exists (os ++ [CallGet (cache_key msg)]).
      by rewrite calls_snoc, Hos.
    + destruct Hspec as (evs & -> & _).
      exists (os ++ [CallSet (cache_key msg) {| found := true |}]).
      by rewrite calls_snoc, Hos.
  - by exists [].
Qed.

Lemma calls_bounded os :
  cache.capacity (calls os (cache.NewLRUCache cache_size_limit)) = cache_size_limit ∧
  (cache.count (calls os (cache.NewLRUCache cache_size_limit)) ≤ 1000)%nat.
Proof.
  induction os as [|o os [IHcap IHcount]] using rev_ind; [split; [done|cbn; lia]|].
  rewrite calls_snoc. destruct o as [k|k v]; cbn [call].
  - rewrite Get_capacity. split; [done|].
    pose proof (Get_count (calls os (cache.NewLRUCache cache_size_limit)) k). lia.
  - rewrite Set_capacity. split; [done|].
    pose proof (Set_count_uniform cache_value_size
                  (calls os (cache.NewLRUCache cache_size_limit)) k v
                  (λ _, eq_refl) ltac:(done) ltac:(by rewrite IHcap)) as Hc.
    rewrite IHcap in Hc. change (cache_size_limit / cache_value_size) with (Z.of_nat 1000) in Hc.
    by apply Nat2Z.inj_le.
Qed.

(** C5: the cache is created with a budget of 1000 times the size of one
    [CacheValue], every entry reports exactly that size, so the budget is
    worth exactly 1000 entries: no sequence of [Get] and [Set] calls on
    that cache, and no run of the relay, ever leaves more than 1000
    entries in it, and 1000 entries can be reached. *)
Theorem cache_holds_at_most_1000_entries :
  cache_size_limit = 1000 * cache_value_size ∧
  (∀ v : CacheValue, Size v = cache_value_size) ∧
  cache_size_limit / cache_value_size = 1000 ∧
  (∀ os, (cache.count (calls os (cache.NewLRUCache cache_size_limit)) ≤ 1000)%nat) ∧
  (∀ env b recvs, (cache.count (lru (world_of (main env b recvs))) ≤ 1000)%nat) ∧
  (∃ os, cache.count (calls os (cache.NewLRUCache cache_size_limit)) = 1000%nat).
Proof.
  split_and!; try done.
  - intros os. apply calls_bounded.
  - intros env b recvs. destruct (main_cache_calls env b recvs) as [os ->].
    apply calls_bounded.
  - exists (map (λ i, CallSet (strconv_Itoa (Z.of_nat i)) {| found := true |}) (seq 0 1001)).
    vm_compute. reflexivity.
Qed.

(** C3 (the code departs from it): a receive error is logged, and the turn
    of the loop then carries on with the message that came with the error
    exactly as if it had been received: it is fingerprinted, looked up,
    and, when new, entered in the cache and forwarded.  On the first
    failing receive (empty message) the empty message is forwarded. *)
Theorem recv_error_message_is_processed (env : Env) (b : gmap string EMDRDoc.t)
  (e : error) (msg : string) (w : World) :
  iteration env (msg, Some e) w
  = iteration env (msg, None) (emit (Println ("RECV ERROR: " +:+ e)) w) ∧
  let w' := world_of (iteration env ("", Some e) (banner_world b)) in
  cache_key "" = "811c9dc5" ∧
  outbound w' = [""] ∧
  cache.has "811c9dc5" (lru w') = true ∧
  ∃ evs, since (banner_world b) w'
         = [Println ("RECV ERROR: " +:+ e); CacheGet "811c9dc5" false;
            CacheSet "811c9dc5"; Send ""] ++ evs.
Proof.
  split; [reflexivity|]. cbv zeta.
  pose proof (iteration_spec env "" (Some e) (banner_world b)) as Hspec.
  cbv zeta in Hspec. change (cache_key "") with "811c9dc5" in *.
  change (cache.has "811c9dc5" (lru (banner_world b))) with false in Hspec.
  destruct Hspec as (evs & Hl & Ho & _ & Ht & _).
  split_and!; [done|by rewrite Ho|by rewrite Hl|].
  exists evs. by apply since_app.
Qed.

Lemma looked_up_app (tr1 tr2 : list Event) :
  looked_up (tr1 ++ tr2) = looked_up tr1 ++ looked_up tr2.
Proof. apply omap_app. Qed.

(** A turn of the loop consults the cache once, under the key of the
    message, whatever the state of the process. *)
Lemma iteration_looked_up (env : Env) msg zmq_err w :
  looked_up (since w (world_of (iteration env (msg, zmq_err) w))) = [cache_key msg].
Proof.
  pose proof (iteration_spec env msg zmq_err w) as Hspec. cbv zeta in Hspec.
  assert (Hlog : looked_up (recv_log zmq_err) = []) by (by destruct zmq_err).
  destruct (cache.has (cache_key msg) (lru w)).
  - destruct Hspec as (_ & _ & _ & _ & _ & Ht).
    rewrite (since_app _ _ _ Ht), looked_up_app, Hlog. reflexivity.
  - destruct Hspec as (evs & _ & _ & _ & Ht & Hev).
    rewrite (since_app _ _ _ Ht), !looked_up_app, Hlog.
    destruct (persist_events_quiet evs Hev) as [-> _]. reflexivity.
Qed.

(** C9: the cache key depends on the bytes of the message only: two
    byte-identical messages get the same key, in whatever state and turn
    of the loop they are received; the key is the 32-bit FNV-1 digest of
    the bytes written as exactly eight hexadecimal digits (reading the key
    back in base 16 gives the digest). *)
Theorem fingerprint_is_deterministic_hex_digest (msg1 msg2 : string) :
  bytes_of_string msg1 = bytes_of_string msg2 →
  cache_key msg1 = cache_key msg2 ∧
  (∀ env1 env2 zmq_err1 zmq_err2 w1 w2,
     looked_up (since w1 (world_of (iteration env1 (msg1, zmq_err1) w1)))
     = looked_up (since w2 (world_of (iteration env2 (msg2, zmq_err2) w2)))) ∧
  String.length (cache_key msg1) = 8%nat ∧
  0 ≤ digest msg1 < 2 ^ 32 ∧
  parse_hex (cache_key msg1) = Some (digest msg1).
Proof.
  intros Hbytes.
  assert (Hkey : cache_key msg1 = cache_key msg2).
  { unfold cache_key, checksum. by rewrite Hbytes. }
  split_and!.
  - exact Hkey.
  - intros. by rewrite !iteration_looked_up, Hkey.
  - apply cache_key_length.
  - apply digest_range.
  - apply digest_range.
  - apply parse_hex_cache_key.
Qed.

Lemma fingerprint_is_deterministic_hex_digest_witness :
  cache_key "abc" = cache_key "abc" ∧
  (∀ env1 env2 zmq_err1 zmq_err2 w1 w2,
     looked_up (since w1 (world_of (iteration env1 ("abc", zmq_err1) w1)))
     = looked_up (since w2 (world_of (iteration env2 ("abc", zmq_err2) w2)))) ∧
  String.length (cache_key "abc") = 8%nat ∧
  0 ≤ digest "abc" < 2 ^ 32 ∧
  parse_hex (cache_key "abc") = Some (digest "abc").
Proof.
  apply (fingerprint_is_deterministic_hex_digest "abc" "abc").
  reflexivity.
Defined.

Lemma main_running_capacity (env : Env) b recvs w :
  main env b recvs = Ok tt w → cache.capacity (lru w) = cache_size_limit.
Proof.
  intros Hrun. destruct (main_cache_calls env b recvs) as [os Hos].
  rewrite Hrun in Hos. cbn [world_of] in Hos. rewrite Hos. apply calls_bounded.
Qed.



(** Two byte-identical messages in a row: exactly one forward. *)
Example consecutive_duplicates_one_forward :
  outbound (world_of (main (example_env false 0 EMDRMsg.zero) ∅
                        [("abc", None); ("abc", None)])) = ["abc"].
Proof. vm_compute. reflexivity. Qed.

(** ** The decode-and-persist path *)

(** The only way out of the loop: persistence enabled, a new message, and
    a decompression that fails. *)
Lemma iteration_exit_only_on_decode_failure (env : Env) msg zmq_err w code w' :
  iteration env (msg, zmq_err) w = Exit code w' →
  code = 1 ∧ Configuration.CouchbaseCache (configuration env) = true ∧
  cache.has (cache_key msg) (lru w) = false ∧
  ∃ e, (ZlibDecode env msg).2 = Some e.
Proof.
  destruct (cache.has (cache_key msg) (lru w)) eqn:Hk.
  - by rewrite (iteration_hit env msg zmq_err w Hk).
  - rewrite (iteration_miss env msg zmq_err w Hk). unfold decode_and_persist.
    case_bool_decide as Hflag; [done|].
    destruct (ZlibDecode env msg) as [decoded [e|]].
    + intros [= <- _]. split_and!; [done|by destruct (Configuration.CouchbaseCache _)|done|by exists e].
    + destruct (json_Unmarshal env decoded EMDRMsg.zero) as [m o].
      match goal with |- context [for_range _ _ ?w1] =>
        destruct (for_range_persist env m (EMDRMsg.Rowsets m) w1) as (w2 & evs & -> & _) end.
      done.
Qed.

(** C2, as the code has it: with persistence enabled, when the
    decompression of a new message fails, the failure is reported through
    [log.Fatal] and the process exits with status 1.  The message was
    entered in the cache and forwarded before that, and nothing is written
    to the bucket; but the loop does not go on to the next message,
    whatever follows.  No other error leaves the loop. *)
Theorem decode_failure_is_fatal (env : Env) (msg : string) (zmq_err : option error)
  (w : World) (e : error) :
  Configuration.CouchbaseCache (configuration env) = true →
  cache.has (cache_key msg) (lru w) = false →
  (ZlibDecode env msg).2 = Some e →
  ∃ w',
    iteration env (msg, zmq_err) w = Exit 1 w' ∧
    since w w' = recv_log zmq_err
                 ++ [CacheGet (cache_key msg) false; CacheSet (cache_key msg); Send msg; Fatal e] ∧
    outbound w' = outbound w ++ [msg] ∧
    lru w' = cache.Set_ (cache_key msg) {| found := true |} (lru w) ∧
    bucket w' = bucket w ∧
    (∀ rest, main_loop env ((msg, zmq_err) :: rest) w = Exit 1 w') ∧
    (∀ msg0 zmq_err0 w0 code w0',
       iteration env (msg0, zmq_err0) w0 = Exit code w0' →
       code = 1 ∧ ∃ e0, (ZlibDecode env msg0).2 = Some e0).
Proof.
  intros Hflag Hmiss Hdec.
  pose proof (iteration_miss env msg zmq_err w Hmiss) as Hit.
  unfold decode_and_persist in Hit. rewrite Hflag in Hit.
  rewrite bool_decide_eq_false_2 in Hit by done.
  destruct (ZlibDecode env msg) as [decoded err]. cbn [snd] in Hdec. subst err.
  unfold log_Fatal, emit in Hit. cbn [lru outbound bucket trace ticks] in Hit.
  eexists. split; [exact Hit|]. cbn [lru outbound bucket trace ticks].
  split_and!; try done.
  - apply since_app. by rewrite <- !app_assoc.
  - intros rest. by rewrite main_loop_cons, Hit.
  - intros msg0 zmq_err0 w0 code w0' Hexit.
    by destruct (iteration_exit_only_on_decode_failure env _ _ _ _ _ Hexit) as (? & _ & _ & ?).
Qed.

Lemma decode_failure_is_fatal_witness :
  let env := example_env true 4000 (example_envelope []) in
  ∃ w',
    iteration env ("y", None) (banner_world ∅) = Exit 1 w' ∧
    since (banner_world ∅) w'
    = recv_log None
      ++ [CacheGet (cache_key "y") false; CacheSet (cache_key "y"); Send "y";
          Fatal "zlib: invalid header"] ∧
    outbound w' = outbound (banner_world ∅) ++ ["y"] ∧
    lru w' = cache.Set_ (cache_key "y") {| found := true |} (lru (banner_world ∅)) ∧
    bucket w' = bucket (banner_world ∅) ∧
    (∀ rest, main_loop env (("y", None) :: rest) (banner_world ∅) = Exit 1 w') ∧
    (∀ msg0 zmq_err0 w0 code w0',
       iteration env (msg0, zmq_err0) w0 = Exit code w0' →
       code = 1 ∧ ∃ e0, (ZlibDecode env msg0).2 = Some e0).
Proof.
  apply (decode_failure_is_fatal (example_env true 4000 (example_envelope []))
           "y" None (banner_world ∅) "zlib: invalid header");
    vm_compute; reflexivity.
Defined.

(** C2, as stated, fails: with persistence enabled, a message that cannot
    be decompressed ends the process; the message after it is never
    forwarded. *)
Lemma decode_failure_stops_relay_counterexample :
  let env := example_env true 4000 (example_envelope []) in
  let r := main env ∅ [("y", None); ("xabc", None)] in
  (ZlibDecode env "y").2 = Some "zlib: invalid header" ∧
  cache.has (cache_key "xabc") (lru (world_of r)) = false ∧
  running r = false ∧
  outbound (world_of r) = ["y"] ∧
  ¬ ("xabc" ∈ outbound (world_of r)).
Proof.
  vm_compute. split_and!; try reflexivity.
  intros Hin. apply list_elem_of_singleton in Hin. discriminate Hin.
Qed.

(** ** The freshness window *)

(** Narrowing to 32 bits and subtracting at that width gives the true
    difference exactly when that difference is a 32-bit value. *)
Lemma int32_sub_3600 (now : Z) :
  int32 (int32 now - 3600) = int32 (now - 3600).
Proof.
  unfold int32.
  replace ((now + 2 ^ 31) mod 2 ^ 32 - 2 ^ 31 - 3600 + 2 ^ 31)
    with ((now + 2 ^ 31) mod 2 ^ 32 - 3600) by lia.
  rewrite Zminus_mod_idemp_l. do 2 f_equal. lia.
Qed.

Lemma int32_small (x : Z) : - 2 ^ 31 ≤ x < 2 ^ 31 → int32 x = x.
Proof. intros Hx. unfold int32. rewrite Z.mod_small by lia. lia. Qed.

Lemma in_window_spec (element : Rowset.t) (now : time.Time) :
  - 2 ^ 31 ≤ time.Unix now - 3600 < 2 ^ 31 →
  in_window element now
  = bool_decide (time.Unix now - 3600 ≤ time.Unix (Rowset.GeneratedAt element)).
Proof.
  intros Hnow. unfold in_window. rewrite int32_sub_3600, int32_small by done.
  case_bool_decide; [by apply Z.leb_le|by apply Z.leb_gt; lia].
Qed.

(** The body of the loop over the rowsets, while the clock reading minus
    3600 is a signed 32-bit value: a rowset is written to the bucket
    exactly when its generation time is at or after the clock reading
    minus 3600 seconds.  One generated exactly 3600 seconds before is
    written, one generated 3601 seconds before is not; a rowset left out
    causes no write at all. *)
Theorem rowset_persisted_iff_in_window (env : Env) (m : EMDRMsg.t)
  (element : Rowset.t) (w : World) :
  let now := time.Unix (time_Now env (ticks w)) in
  let generated := time.Unix (Rowset.GeneratedAt element) in
  let key := document_key m element in
  let doc := new_doc m element (time_Now env (S (ticks w))) in
  let w' := world_of (persist_rowset env m element w) in
  - 2 ^ 31 ≤ now - 3600 < 2 ^ 31 →
  persist_rowset env m element w = Ok tt w' ∧
  store_writes (since w w') = (if bool_decide (now - 3600 ≤ generated) then [(key, doc)] else []) ∧
  bucket w' = (if bool_decide (now - 3600 ≤ generated) then <[key := doc]> (bucket w) else bucket w) ∧
  (generated = now - 3600 → store_writes (since w w') = [(key, doc)]) ∧
  (generated = now - 3601 → since w w' = [] ∧ bucket w' = bucket w).
Proof.
  intros now generated key doc w' Hnow. subst w'.
  rewrite persist_rowset_eq, (in_window_spec element _ Hnow).
  fold now generated key doc. cbn [world_of].
  assert (Hw : ∀ evs w2, trace w2 = trace w ++ evs → since w w2 = evs)
    by (intros; by apply since_app).
  case_bool_decide as Hge.
  - rewrite (Hw [BucketSet key doc]) by done. split_and!; try done. lia.
  - rewrite (Hw []) by (by rewrite app_nil_r). split_and!; try done. lia.
Qed.

Lemma rowset_persisted_iff_in_window_witness :
  let env := example_env true 4000 (example_envelope []) in
  let m := example_envelope [] in
  let element := Rowset.mk (time.mk 400) 10000210 34 [] in
  let w := banner_world ∅ in
  let now := time.Unix (time_Now env (ticks w)) in
  let generated := time.Unix (Rowset.GeneratedAt element) in
  let key := document_key m element in
  let doc := new_doc m element (time_Now env (S (ticks w))) in
  let w' := world_of (persist_rowset env m element w) in
  persist_rowset env m element w = Ok tt w' ∧
  store_writes (since w w') = (if bool_decide (now - 3600 ≤ generated) then [(key, doc)] else []) ∧
  bucket w' = (if bool_decide (now - 3600 ≤ generated) then <[key := doc]> (bucket w) else bucket w) ∧
  (generated = now - 3600 → store_writes (since w w') = [(key, doc)]) ∧
  (generated = now - 3601 → since w w' = [] ∧ bucket w' = bucket w).
Proof.
  apply (rowset_persisted_iff_in_window (example_env true 4000 (example_envelope []))
           (example_envelope []) (Rowset.mk (time.mk 400) 10000210 34 []) (banner_world ∅)).
  vm_compute. split; [discriminate|reflexivity].
Defined.

(** ** Document keys *)




(** ** Persistence disabled *)

Section persistence_disabled.
Variable env : Env.
Hypothesis disabled : Configuration.CouchbaseCache (configuration env) = false.

Lemma decode_and_persist_disabled msg w : decode_and_persist env msg w = Ok tt w.
Proof. unfold decode_and_persist. by rewrite disabled. Qed.

Lemma iteration_disabled r w :
  ∃ w', iteration env r w = Ok tt w' ∧ bucket w' = bucket w ∧ ticks w' = ticks w ∧
        store_writes (trace w') = store_writes (trace w).
Proof.
  destruct r as [msg zmq_err].
  assert (Hlog : store_writes (recv_log zmq_err) = []) by (by destruct zmq_err).
  destruct (cache.has (cache_key msg) (lru w)) eqn:Hk.
  - rewrite (iteration_hit env msg zmq_err w Hk). eexists. split; [done|].
    cbn [bucket ticks trace]. rewrite !store_writes_app, Hlog. cbn. by rewrite app_nil_r.
  - rewrite (iteration_miss env msg zmq_err w Hk), decode_and_persist_disabled.
    eexists. split; [done|].
    cbn [bucket ticks trace]. rewrite !store_writes_app, Hlog. cbn. by rewrite app_nil_r.
Qed.

Lemma main_loop_disabled recvs w :
  ∃ w', main_loop env recvs w = Ok tt w' ∧ bucket w' = bucket w ∧ ticks w' = ticks w ∧
        store_writes (trace w') = store_writes (trace w).
Proof.
  revert w. induction recvs as [|r recvs IH]; intros w; [by exists w|].
  rewrite main_loop_cons.
  destruct (iteration_disabled r w) as (w1 & -> & Hb1 & Ht1 & Hs1).
  destruct (IH w1) as (w' & -> & Hb & Ht & Hs).
  exists w'. split; [done|]. by rewrite Hb, Ht, Hs.
Qed.

End persistence_disabled.

(** What is forwarded and what is cached in a turn of the loop depends on
    the cache and the message alone, not on the configuration. *)
Lemma iteration_forward_independent (env env' : Env) r w w2 :
  lru w = lru w2 → outbound w = outbound w2 →
  lru (world_of (iteration env r w)) = lru (world_of (iteration env' r w2)) ∧
  outbound (world_of (iteration env r w)) = outbound (world_of (iteration env' r w2)).
Proof.
  intros Hl Ho. destruct r as [msg zmq_err].
  pose proof (iteration_spec env msg zmq_err w) as H1.
  pose proof (iteration_spec env' msg zmq_err w2) as H2.
  cbv zeta in H1, H2. rewrite <- Hl in H2.
  destruct (cache.has (cache_key msg) (lru w)).
  - destruct H1 as (_ & -> & -> & _), H2 as (_ & -> & -> & _). by rewrite Ho.
  - destruct H1 as (? & -> & -> & _), H2 as (? & -> & -> & _). by rewrite Ho.
Qed.

Lemma outbound_grows (env : Env) recvs w :
  outbound w `prefix_of` outbound (world_of (main_loop env recvs w)).
Proof.
  apply (main_loop_invariant env (λ w', outbound w `prefix_of` outbound w')); [|done].
  intros [msg zmq_err] w1 Hpre.
  pose proof (iteration_spec env msg zmq_err w1) as Hspec. cbv zeta in Hspec.
  destruct (cache.has (cache_key msg) (lru w1)).
  - destruct Hspec as (_ & _ & -> & _). done.
  - destruct Hspec as (? & _ & -> & _). by apply prefix_app_r.
Qed.

Lemma main_loop_forward_unchanged (env env' : Env) recvs :
  Configuration.CouchbaseCache (configuration env) = false →
  ∀ w w2, lru w = lru w2 → outbound w = outbound w2 →
  outbound (world_of (main_loop env' recvs w2))
    `prefix_of` outbound (world_of (main_loop env recvs w)) ∧
  (running (main_loop env' recvs w2) = true →
   outbound (world_of (main_loop env' recvs w2)) = outbound (world_of (main_loop env recvs w))).
Proof.
  intros Hoff. induction recvs as [|r recvs IH]; intros w w2 Hl Ho.
  - cbn. by rewrite Ho.
  - rewrite !main_loop_cons.
    destruct (iteration_forward_independent env env' r w w2 Hl Ho) as [Hl1 Ho1].
    destruct (iteration_disabled env Hoff r w) as (w1 & Hit & _).
    rewrite Hit in *. cbn [world_of] in Hl1, Ho1.
    destruct (iteration env' r w2) as [[] w2'|code w2']; cbn [world_of] in *.
    + by apply IH.
    + split; [|done]. rewrite <- Ho1. apply outbound_grows.
Qed.

(** C8: with the [CouchbaseCache] flag false, no run of the relay writes
    to the bucket, whatever the messages hold and whatever the decoders
    would make of them: the process stays in its loop, the bucket is as it
    was found and the trace has no upsert.  Forwarding is what it is with
    any other configuration: every other configuration forwards a prefix
    of the same messages, and the same messages when it is still running. *)
Theorem persistence_disabled_no_store_writes (env : Env) (b : gmap string EMDRDoc.t)
  (recvs : list (string * option error)) :
  Configuration.CouchbaseCache (configuration env) = false →
  running (main env b recvs) = true ∧
  bucket (world_of (main env b recvs)) = b ∧
  store_writes (trace (world_of (main env b recvs))) = [] ∧
  ∀ env',
    outbound (world_of (main env' b recvs)) `prefix_of` outbound (world_of (main env b recvs)) ∧
    (running (main env' b recvs) = true →
     outbound (world_of (main env' b recvs)) = outbound (world_of (main env b recvs))).
Proof.
  intros Hoff.
  destruct (main_loop_disabled env Hoff recvs (banner_world b)) as (w' & Hrun & Hb & _ & Hs).
  split_and!.
  - by rewrite main_eq, Hrun.
  - by rewrite main_eq, Hrun.
  - by rewrite main_eq, Hrun.
  - intros env'. rewrite !main_eq. by apply main_loop_forward_unchanged.
Qed.

Lemma persistence_disabled_no_store_writes_witness :
  let envelope := example_envelope [Rowset.mk (time.mk 3990) 10000210 34 []] in
  let env := example_env false 4000 envelope in
  let recvs := [("xabc", None); ("y", None); ("xabc", None)] in
  running (main env ∅ recvs) = true ∧
  bucket (world_of (main env ∅ recvs)) = ∅ ∧
  store_writes (trace (world_of (main env ∅ recvs))) = [] ∧
  ∀ env',
    outbound (world_of (main env' ∅ recvs)) `prefix_of` outbound (world_of (main env ∅ recvs)) ∧
    (running (main env' ∅ recvs) = true →
     outbound (world_of (main env' ∅ recvs)) = outbound (world_of (main env ∅ recvs))).
Proof.
  apply (persistence_disabled_no_store_writes
           (example_env false 4000 (example_envelope [Rowset.mk (time.mk 3990) 10000210 34 []]))
           ∅ [("xabc", None); ("y", None); ("xabc", None)]).
  reflexivity.
Defined.

(** ** Rowsets sharing a key *)

Lemma store_writes_bucket_sets (ws : list (string * EMDRDoc.t)) :
  store_writes (map (λ kd, BucketSet kd.1 kd.2) ws) = ws.
Proof. induction ws as [|[k d] ws IH]; [done|]. cbn. f_equal. exact IH. Qed.

Lemma apply_writes_lookup_other (ws : list (string * EMDRDoc.t)) (b : gmap string EMDRDoc.t)
  (k : string) :
  Forall (λ kd, kd.1 ≠ k) ws → apply_writes ws b !! k = b !! k.
Proof.
  revert b. induction ws as [|[k0 d0] ws IH]; intros b Hws; [done|].
  inversion Hws as [|? ? Hne Hws']; subst. cbn [fst] in Hne.
  unfold apply_writes in *. cbn [foldl fst snd]. rewrite IH by done.
  by apply lookup_insert_ne.
Qed.

Lemma apply_writes_cons (k : string) (d : EMDRDoc.t) (ws : list (string * EMDRDoc.t))
  (b : gmap string EMDRDoc.t) :
  apply_writes ((k, d) :: ws) b = apply_writes ws (<[k := d]> b).
Proof. reflexivity. Qed.

Section rowsets.
Variable env : Env.
Variable m : EMDRMsg.t.

(** The writes of the loop over the rowsets, in the order of the rowsets;
    each is the document of one of the rowsets, stamped with a clock
    reading taken during the loop. *)
Lemma for_range_persist_writes rs w :
  ∃ w' ws,
    for_range rs (persist_rowset env m) w = Ok tt w' ∧
    (ticks w ≤ ticks w')%nat ∧
    trace w' = trace w ++ map (λ kd, BucketSet kd.1 kd.2) ws ∧
    bucket w' = apply_writes ws (bucket w) ∧
    Forall (λ kd, ∃ element n, element ∈ rs ∧ (ticks w < n ≤ ticks w')%nat ∧
                   kd = (document_key m element, new_doc m element (time_Now env n))) ws.
Proof.
  revert w. induction rs as [|element rs IH]; intros w.
  - exists w, []. cbn. rewrite app_nil_r. by split_and!.
  - cbn [for_range]. unfold mbind, M_bind. rewrite persist_rowset_eq.
    destruct (in_window element (time_Now env (ticks w)));
      match goal with |- context [for_range rs _ ?w1] =>
        destruct (IH w1) as (w' & ws & -> & Hti & Htr & Hb & Hws) end;
      cbn [lru outbound trace bucket ticks] in *.
    + exists w', ((document_key m element, new_doc m element (time_Now env (S (ticks w)))) :: ws).
      split_and!; [done|lia| |done|].
      * rewrite Htr, <- app_assoc. done.
      * constructor.
        -- exists element, (S (ticks w)). split_and!; [by left|lia|lia|done].
        -- eapply Forall_impl; [exact Hws|]. intros kd (e & n & He & Hn & ->).
           exists e, n. split_and!; [by right|lia|lia|done].
    + exists w', ws. split_and!; [done|lia|done|done|].
      eapply Forall_impl; [exact Hws|]. intros kd (e & n & He & Hn & ->).
      exists e, n. split_and!; [by right|lia|lia|done].
Qed.

Lemma for_range_persist_app rs1 rs2 w :
  for_range (rs1 ++ rs2) (persist_rowset env m) w
  = for_range rs2 (persist_rowset env m) (world_of (for_range rs1 (persist_rowset env m) w)).
Proof.
  revert w. induction rs1 as [|element rs1 IH]; intros w; [done|].
  cbn [app for_range]. unfold mbind, M_bind. rewrite persist_rowset_eq. apply IH.
Qed.

Lemma for_range_persist_cons element rs w :
  in_window element (time_Now env (ticks w)) = true →
  for_range (element :: rs) (persist_rowset env m) w
  = for_range rs (persist_rowset env m)
      (mkWorld (lru w) (outbound w)
         (<[document_key m element := new_doc m element (time_Now env (S (ticks w)))]> (bucket w))
         (trace w ++ [BucketSet (document_key m element)
                        (new_doc m element (time_Now env (S (ticks w))))])
         (S (S (ticks w)))).
Proof.
  intros Hin. cbn [for_range]. unfold mbind, M_bind. by rewrite persist_rowset_eq, Hin.
Qed.

End rowsets.

(** * Further properties of the relay *)

(** ** What a run forwards, looks up and stores *)

Lemma cache_sets_app (tr1 tr2 : list Event) :
  cache_sets (tr1 ++ tr2) = cache_sets tr1 ++ cache_sets tr2.
Proof. apply omap_app. Qed.

Lemma persist_events_no_sets (evs : list Event) :
  Forall persist_event evs → cache_sets evs = [].
Proof. induction 1 as [|e evs He _ IH]; [done|]. by destruct e. Qed.

(** One turn of the loop, summed up by the events it adds. *)
Lemma iteration_summary (env : Env) msg zmq_err w :
  ∃ evs,
    let w' := world_of (iteration env (msg, zmq_err) w) in
    trace w' = trace w ++ evs ∧
    outbound w' = outbound w ++ sends evs ∧
    bucket w' = apply_writes (store_writes evs) (bucket w) ∧
    looked_up evs = [cache_key msg] ∧
    cache_sets evs = map cache_key (sends evs) ∧
    (sends evs = [] ∨ sends evs = [msg]).
Proof.
  pose proof (iteration_spec env msg zmq_err w) as Hspec. cbv zeta in Hspec.
  assert (Hlog : sends (recv_log zmq_err) = [] ∧ store_writes (recv_log zmq_err) = [] ∧
                 looked_up (recv_log zmq_err) = [] ∧ cache_sets (recv_log zmq_err) = [])
    by (by destruct zmq_err).
  destruct Hlog as (Hl1 & Hl2 & Hl3 & Hl4).
  destruct (cache.has (cache_key msg) (lru w)).
  - destruct Hspec as (_ & _ & Ho & Hb & _ & Ht).
    exists (recv_log zmq_err ++ [CacheGet (cache_key msg) true]). cbv zeta.
    rewrite !sends_app, !store_writes_app, !looked_up_app, !cache_sets_app, Hl1, Hl2, Hl3, Hl4.
    cbn. rewrite app_nil_r. split_and!; try done. by left.
  - destruct Hspec as (evs & _ & Ho & Hb & Ht & Hev).
    exists (recv_log zmq_err
            ++ [CacheGet (cache_key msg) false; CacheSet (cache_key msg); Send msg] ++ evs).
    cbv zeta.
    rewrite !sends_app, !store_writes_app, !looked_up_app, !cache_sets_app, Hl1, Hl2, Hl3, Hl4.
    destruct (persist_events_quiet evs Hev) as [-> ->].
    rewrite (persist_events_no_sets evs Hev). cbn. split_and!; try done. by right.
Qed.

Lemma main_loop_forwards_received (env : Env) recvs w :
  ∃ out, outbound (world_of (main_loop env recvs w)) = outbound w ++ out ∧
         out `sublist_of` map fst recvs.
Proof.
  revert w. induction recvs as [|[msg zmq_err] recvs IH]; intros w.
  - exists []. by rewrite app_nil_r.
  - rewrite main_loop_cons.
    destruct (iteration_summary env msg zmq_err w) as (evs & _ & Ho & _ & _ & _ & Hs).
    cbv zeta in Ho.
    assert (Hsub : sends evs `sublist_of` [msg]).
    { destruct Hs as [-> | ->]; [apply sublist_nil_l|done]. }
    destruct (iteration env (msg, zmq_err) w) as [[] w1|code w1]; cbn [world_of] in *.
    + destruct (IH w1) as (out & -> & Hout). exists (sends evs ++ out).
      rewrite Ho, <- app_assoc. split; [done|].
      cbn [map fst]. by apply (sublist_app _ [msg]).
    + exists (sends evs). split; [done|].
      cbn [map fst]. etrans; [exact Hsub|]. apply sublist_skip, sublist_nil_l.
Qed.

(** X1: the relay forwards nothing but what it received: the messages on
    the outbound socket are, verbatim and in the order of arrival, a
    subsequence of the messages received. *)
Theorem forwards_only_received_messages (env : Env) (b : gmap string EMDRDoc.t)
  (recvs : list (string * option error)) :
  outbound (world_of (main env b recvs)) `sublist_of` map fst recvs.
Proof.
  rewrite main_eq.
  destruct (main_loop_forwards_received env recvs (banner_world b)) as (out & -> & Hout).
  exact Hout.
Qed.

(** A whole run, summed up by the events it adds. *)
Lemma main_loop_summary (env : Env) recvs w :
  ∃ evs,
    let r := main_loop env recvs w in
    trace (world_of r) = trace w ++ evs ∧
    outbound (world_of r) = outbound w ++ sends evs ∧
    bucket (world_of r) = apply_writes (store_writes evs) (bucket w) ∧
    cache_sets evs = map cache_key (sends evs) ∧
    (if running r then looked_up evs = map (λ x, cache_key x.1) recvs
     else looked_up evs `prefix_of` map (λ x, cache_key x.1) recvs).
Proof.
  revert w. induction recvs as [|[msg zmq_err] recvs IH]; intros w.
  - exists []. cbn. rewrite !app_nil_r. by split_and!.
  - cbv zeta. rewrite main_loop_cons.
    destruct (iteration_summary env msg zmq_err w) as (evs & Ht & Ho & Hb & Hlk & Hcs & _).
    cbv zeta in Ht, Ho, Hb.
    destruct (iteration env (msg, zmq_err) w) as [[] w1|code w1]; cbn [world_of] in *.
    + destruct (IH w1) as (evs' & Ht' & Ho' & Hb' & Hcs' & Hlk'). cbv zeta in *.
      exists (evs ++ evs').
      rewrite Ht', Ho', Hb', Ht, Ho, Hb.
      rewrite !sends_app, !store_writes_app, !cache_sets_app, !looked_up_app, map_app,
        apply_writes_app, Hcs, Hcs', Hlk, <- !app_assoc.
      split_and!; try done. cbn [map fst app].
      destruct (running (main_loop env recvs w1)); [by rewrite Hlk'|by apply prefix_cons].
    + exists evs. rewrite Hlk. split_and!; try done.
      cbn [running map fst]. apply prefix_cons, prefix_nil.
Qed.

(** X2: the bookkeeping of a run.  The cache is consulted once per message
    taken from the socket, under the key of that message and in the order
    of arrival (for all of them while the process runs, for those up to
    the fatal one otherwise), and it is written once per forward, under
    the key of the message forwarded, in the order of the forwards. *)
Theorem one_lookup_per_message_one_set_per_forward (env : Env)
  (b : gmap string EMDRDoc.t) (recvs : list (string * option error)) :
  let r := main env b recvs in
  cache_sets (trace (world_of r)) = map cache_key (outbound (world_of r)) ∧
  (if running r
   then looked_up (trace (world_of r)) = map (λ x, cache_key x.1) recvs
   else looked_up (trace (world_of r)) `prefix_of` map (λ x, cache_key x.1) recvs).
Proof.
  cbv zeta. rewrite main_eq.
  destruct (main_loop_summary env recvs (banner_world b)) as (evs & Ht & Ho & _ & Hcs & Hlk).
  cbv zeta in *. rewrite Ht, Ho, cache_sets_app, looked_up_app, Hcs. by split.
Qed.

Lemma apply_writes_dom (ws : list (string * EMDRDoc.t)) (b : gmap string EMDRDoc.t) :
  dom b ⊆ dom (apply_writes ws b).
Proof.
  revert b. induction ws as [|[k d] ws IH]; intros b; [done|].
  rewrite apply_writes_cons. etrans; [|apply IH]. rewrite dom_insert. set_solver.
Qed.

(** X3: the bucket after a run is the bucket as it was found with the
    upserts of the trace applied in order.  No document is ever removed,
    and a document under a key the run did not write is as it was. *)
Theorem bucket_changes_only_by_upserts (env : Env) (b : gmap string EMDRDoc.t)
  (recvs : list (string * option error)) (k : string) :
  let w := world_of (main env b recvs) in
  Forall (λ kd, kd.1 ≠ k) (store_writes (trace w)) →
  bucket w !! k = b !! k ∧
  bucket w = apply_writes (store_writes (trace w)) b ∧
  dom b ⊆ dom (bucket w).
Proof.
  intros w Hk. subst w. revert Hk. rewrite main_eq.
  destruct (main_loop_summary env recvs (banner_world b)) as (evs & Ht & _ & Hb & _).
  cbv zeta in *. rewrite Ht, Hb, store_writes_app. cbn [banner_world trace bucket app].
  change (store_writes (trace (banner_world b))) with (@nil (string * EMDRDoc.t)).
  cbn [app]. intros Hk. split_and!; [by apply apply_writes_lookup_other|done|apply apply_writes_dom].
Qed.

Lemma bucket_changes_only_by_upserts_witness :
  let envelope := example_envelope [Rowset.mk (time.mk 3990) 10000210 34 []] in
  let env := example_env true 4000 envelope in
  let b : gmap string EMDRDoc.t := {[ "30000142-35-orders" := EMDRDoc.mk 30000142 35 17 [] "orders" ]} in
  let w := world_of (main env b [("xabc", None)]) in
  bucket w !! "30000142-35-orders" = b !! "30000142-35-orders" ∧
  bucket w = apply_writes (store_writes (trace w)) b ∧
  dom b ⊆ dom (bucket w).
Proof.
  apply (bucket_changes_only_by_upserts
           (example_env true 4000 (example_envelope [Rowset.mk (time.mk 3990) 10000210 34 []]))
           {[ "30000142-35-orders" := EMDRDoc.mk 30000142 35 17 [] "orders" ]}
           [("xabc", None)] "30000142-35-orders").
  vm_compute. repeat constructor. discriminate.
Defined.

(** ** Leaving the loop

    The exits considered here are those of the loop itself; the exit of
    [periodic_exiter] is outside the model. *)

Lemma iteration_fatal (env : Env) msg zmq_err w decoded e :
  Configuration.CouchbaseCache (configuration env) = true →
  cache.has (cache_key msg) (lru w) = false →
  ZlibDecode env msg = (decoded, Some e) →
  iteration env (msg, zmq_err) w =
  Exit 1 (mkWorld (cache.Set_ (cache_key msg) {| found := true |} (lru w))
            (outbound w ++ [msg]) (bucket w)
            ((trace w ++ recv_log zmq_err
                ++ [CacheGet (cache_key msg) false; CacheSet (cache_key msg); Send msg])
               ++ [Fatal e])
            (ticks w)).
Proof.
  intros Hflag Hmiss Hdec. rewrite (iteration_miss env msg zmq_err w Hmiss).
  unfold decode_and_persist. rewrite Hflag, Hdec.
  by rewrite bool_decide_eq_false_2 by done.
Qed.

Lemma main_loop_exit (env : Env) recvs w code w' :
  main_loop env recvs w = Exit code w' →
  code = 1 ∧ Configuration.CouchbaseCache (configuration env) = true ∧
  ∃ msg zmq_err e,
    (msg, zmq_err) ∈ recvs ∧ (ZlibDecode env msg).2 = Some e ∧
    last (trace w') = Some (Fatal e) ∧ last (outbound w') = Some msg.
Proof.
  revert w. induction recvs as [|[msg zmq_err] recvs IH]; intros w; [done|].
  rewrite main_loop_cons. destruct (iteration env (msg, zmq_err) w) as [[] w1|code1 w1] eqn:Hit.
  - intros Hexit. destruct (IH w1 Hexit) as (-> & Hflag & m & z & e & Hin & Hdec & Hlast).
    split_and!; [done|done|]. exists m, z, e. split_and!; try done; try apply Hlast.
    by right.
  - intros [= -> ->].
    destruct (iteration_exit_only_on_decode_failure env _ _ _ _ _ Hit) as (-> & Hflag & Hmiss & e & Hdec).
    destruct (ZlibDecode env msg) as [decoded err] eqn:Hz. cbn [snd] in Hdec. subst err.
    rewrite (iteration_fatal env msg zmq_err w decoded e Hflag Hmiss Hz) in Hit.
    injection Hit as <-. cbn [trace outbound].
    split_and!; [done|done|]. exists msg, zmq_err, e.
    split_and!; [by left|by rewrite Hz|apply last_snoc|apply last_snoc].
Qed.

(** The loop never ends the process while every message decompresses,
    whatever the JSON decoder makes of the result. *)
Lemma runs_on_while_messages_decompress (env : Env) b recvs :
  Forall (λ r, (ZlibDecode env r.1).2 = None) recvs → running (main env b recvs) = true.
Proof.
  intros Hok. destruct (main env b recvs) as [[] w|code w] eqn:Hrun; [done|].
  rewrite main_eq in Hrun.
  destruct (main_loop_exit env recvs _ _ _ Hrun) as (_ & _ & msg & z & e & Hin & Hdec & _).
  apply (proj1 (Forall_forall _ _) Hok) in Hin. cbn [fst] in Hin. congruence.
Qed.

(** ** Where the documents come from *)

Lemma int32_range (x : Z) : - 2 ^ 31 ≤ int32 x < 2 ^ 31.
Proof. unfold int32. pose proof (Z.mod_pos_bound (x + 2 ^ 31) (2 ^ 32)). lia. Qed.

Lemma for_range_persist_provenance (env : Env) m rs w :
  ∃ w' ws,
    for_range rs (persist_rowset env m) w = Ok tt w' ∧
    trace w' = trace w ++ map (λ kd, BucketSet kd.1 kd.2) ws ∧
    Forall (λ kd, ∃ element t, element ∈ rs ∧ in_window element (time_Now env t) = true ∧
                   kd = (document_key m element, new_doc m element (time_Now env (S t)))) ws.
Proof.
  revert w. induction rs as [|element rs IH]; intros w.
  - exists w, []. cbn. rewrite app_nil_r. by split_and!.
  - cbn [for_range]. unfold mbind, M_bind. rewrite persist_rowset_eq.
    destruct (in_window element (time_Now env (ticks w))) eqn:Hin;
      match goal with |- context [for_range rs _ ?w1] =>
        destruct (IH w1) as (w' & ws & -> & Htr & Hws) end;
      cbn [trace] in Htr.
    + exists w', ((document_key m element, new_doc m element (time_Now env (S (ticks w)))) :: ws).
      split_and!; [done|by rewrite Htr, <- app_assoc|].
      constructor.
      * exists element, (ticks w). split_and!; [by left|done|done].
      * eapply Forall_impl; [exact Hws|]. intros kd (e & t & He & Ht & ->).
        exists e, t. split_and!; [by right|done|done].
    + exists w', ws. split_and!; [done|done|].
      eapply Forall_impl; [exact Hws|]. intros kd (e & t & He & Ht & ->).
      exists e, t. split_and!; [by right|done|done].
Qed.

Lemma decode_and_persist_provenance (env : Env) msg w :
  ∃ evs, trace (world_of (decode_and_persist env msg w)) = trace w ++ evs ∧
         sends evs = [] ∧ Forall (document_of env msg) (store_writes evs).
Proof.
  unfold decode_and_persist. case_bool_decide.
  - exists []. cbn. rewrite app_nil_r. by split_and!.
  - destruct (ZlibDecode env msg) as [decoded [e|]] eqn:Hz.
    + exists [Fatal e]. cbn. by split_and!.
    + destruct (json_Unmarshal env decoded EMDRMsg.zero) as [m o] eqn:Hj.
      destruct (for_range_persist_provenance env m (EMDRMsg.Rowsets m) w) as (w' & ws & -> & Htr & Hws).
      exists (map (λ kd, BucketSet kd.1 kd.2) ws). cbn [world_of].
      rewrite store_writes_bucket_sets. split_and!; [done| |].
      * clear. induction ws as [|[k d] ws IH]; [done|exact IH].
      * eapply Forall_impl; [exact Hws|]. intros kd (element & t & He & Ht & ->).
        exists decoded, element, t. rewrite Hz, Hj. by split_and!.
Qed.

Lemma main_documents_provenance (env : Env) b recvs :
  Forall (λ kd, ∃ msg, msg ∈ outbound (world_of (main env b recvs)) ∧ document_of env msg kd)
    (store_writes (trace (world_of (main env b recvs)))).
Proof.
  rewrite main_eq.
  apply (main_loop_invariant env
           (λ w, Forall (λ kd, ∃ msg, msg ∈ outbound w ∧ document_of env msg kd)
                   (store_writes (trace w)))); [|constructor].
  intros [msg zmq_err] w HP.
  assert (Hlog : store_writes (recv_log zmq_err) = []) by (by destruct zmq_err).
  destruct (cache.has (cache_key msg) (lru w)) eqn:Hk.
  - rewrite (iteration_hit env msg zmq_err w Hk). cbn [world_of trace outbound].
    rewrite !store_writes_app, Hlog. cbn. by rewrite app_nil_r.
  - rewrite (iteration_miss env msg zmq_err w Hk).
    match goal with |- context [decode_and_persist env msg ?w1] =>
      destruct (decode_and_persist_spec env msg w1) as (evs0 & _ & Ho & _);
      destruct (decode_and_persist_provenance env msg w1) as (evs & Ht & _ & Hev) end.
    cbv zeta in Ho. cbn [outbound trace] in Ho, Ht. rewrite Ho, Ht.
    rewrite !store_writes_app, Hlog.
    change (store_writes [CacheGet (cache_key msg) false; CacheSet (cache_key msg); Send msg])
      with (@nil (string * EMDRDoc.t)).
    cbn [app]. rewrite app_nil_r.
    apply Forall_app. split.
    + eapply Forall_impl; [exact HP|]. intros kd (m & Hm & Hd). exists m.
      split; [|done]. apply elem_of_app. by left.
    + eapply Forall_impl; [exact Hev|]. intros kd Hd. exists msg.
      split; [|done]. apply elem_of_app. right. by apply list_elem_of_singleton.
Qed.

(** X5: every document a run writes to the bucket comes from a message the
    run has forwarded: that message decompresses, the document is built
    from a rowset of the envelope decoded from it, a rowset that passed
    the freshness test at one clock reading, and it is stored under that
    rowset's key and stamped with the next clock reading, narrowed to 32
    bits: its insertion time is always a signed 32-bit value. *)
Theorem documents_come_from_forwarded_messages (env : Env)
  (b : gmap string EMDRDoc.t) (recvs : list (string * option error)) :
  Forall (λ kd, (∃ msg, msg ∈ outbound (world_of (main env b recvs)) ∧ document_of env msg kd) ∧
                - 2 ^ 31 ≤ EMDRDoc.InsertTime kd.2 < 2 ^ 31)
    (store_writes (trace (world_of (main env b recvs)))).
Proof.
  eapply Forall_impl; [apply main_documents_provenance|].
  intros kd (msg & Hmsg & Hdoc). split; [by exists msg|].
  destruct Hdoc as (decoded & element & t & _ & _ & _ & ->). apply int32_range.
Qed.

(** ** Distinct rowsets, distinct keys *)

Lemma string_of_uint_digits (u : Decimal.uint) :
  all_digits (NilEmpty.string_of_uint u) = true.
Proof. induction u; cbn [NilEmpty.string_of_uint all_digits]; by rewrite ?IHu. Qed.

(** [strconv.Itoa] writes an optional minus sign, then at least one digit,
    and nothing but digits. *)
Lemma Itoa_shape (i : Z) :
  ∃ c ds, all_digits (String c ds) = true ∧
          (strconv_Itoa i = String c ds ∨ strconv_Itoa i = String "-" (String c ds)).
Proof.
  assert (Hpos : ∀ p, ∃ c ds, all_digits (String c ds) = true ∧
                              NilZero.string_of_uint (Pos.to_uint p) = String c ds).
  { intros p. pose proof (DecimalPos.Unsigned.to_uint_nonnil p) as Hnn.
    pose proof (string_of_uint_digits (Pos.to_uint p)) as Hd.
    destruct (Pos.to_uint p) as [|u|u|u|u|u|u|u|u|u|u]; [done|..];
      cbn [NilZero.string_of_uint NilEmpty.string_of_uint] in *; eauto. }
  destruct i as [|p|p]; unfold strconv_Itoa; cbn [Z.to_int NilZero.string_of_int].
  - exists "0"%char, "". split; [done|by left].
  - destruct (Hpos p) as (c & ds & Hd & ->). exists c, ds. split; [done|by left].
  - destruct (Hpos p) as (c & ds & Hd & ->). exists c, ds. split; [done|by right].
Qed.

Lemma Itoa_inj (i j : Z) : strconv_Itoa i = strconv_Itoa j → i = j.
Proof.
  unfold strconv_Itoa. intros Heq. apply DecimalZ.to_int_inj.
  assert (Hnn : ∀ z, Z.to_int z ≠ Decimal.Pos Decimal.Nil ∧ Z.to_int z ≠ Decimal.Neg Decimal.Nil).
  { intros [|p|p]; cbn [Z.to_int]; split; try done;
      intros [= Hp]; by apply (DecimalPos.Unsigned.to_uint_nonnil p). }
  pose proof (NilZero.isi (Z.to_int i) (proj1 (Hnn i)) (proj2 (Hnn i))) as Hi.
  pose proof (NilZero.isi (Z.to_int j) (proj1 (Hnn j)) (proj2 (Hnn j))) as Hj.
  rewrite Heq in Hi. congruence.
Qed.

(** A run of digits followed by a hyphen can be read back in one way. *)
Lemma digits_hyphen_inj (ds1 ds2 s1 s2 : string) :
  all_digits ds1 = true → all_digits ds2 = true →
  ds1 +:+ String "-" s1 = ds2 +:+ String "-" s2 → ds1 = ds2 ∧ s1 = s2.
Proof.
  revert ds2. induction ds1 as [|c1 ds1 IH]; intros [|c2 ds2] H1 H2 Heq;
    rewrite ?string_app_cons, ?string_app_nil_l in Heq; cbn [all_digits] in H1, H2.
  - by injection Heq as ->.
  - injection Heq as <- _. done.
  - injection Heq as -> _. done.
  - apply andb_true_iff in H1 as [_ H1]. apply andb_true_iff in H2 as [_ H2].
    injection Heq as -> Heq. destruct (IH ds2 H1 H2 Heq) as [-> ->]. done.
Qed.

Lemma Itoa_hyphen_inj (i j : Z) (s1 s2 : string) :
  strconv_Itoa i +:+ String "-" s1 = strconv_Itoa j +:+ String "-" s2 → i = j ∧ s1 = s2.
Proof.
  destruct (Itoa_shape i) as (c1 & ds1 & Hd1 & Hi), (Itoa_shape j) as (c2 & ds2 & Hd2 & Hj).
  intros Heq.
  assert (Hc1 : is_digit c1 = true) by (cbn [all_digits] in Hd1; by apply andb_true_iff in Hd1 as [? _]).
  assert (Hc2 : is_digit c2 = true) by (cbn [all_digits] in Hd2; by apply andb_true_iff in Hd2 as [? _]).
  assert (Hstr : strconv_Itoa i = strconv_Itoa j ∧ s1 = s2).
  { destruct Hi as [Hi|Hi], Hj as [Hj|Hj]; rewrite Hi, Hj in Heq |- *.
    - destruct (digits_hyphen_inj _ _ _ _ Hd1 Hd2 Heq) as [-> ->]. done.
    - rewrite !string_app_cons in Heq. injection Heq as -> _. done.
    - rewrite !string_app_cons in Heq. injection Heq as <- _. done.
    - rewrite (string_app_cons "-"), (string_app_cons "-" (String c2 ds2)) in Heq.
      injection Heq as -> Heq.
      cbn [all_digits] in Hd1, Hd2.
      apply andb_true_iff in Hd1 as [_ Hd1]. apply andb_true_iff in Hd2 as [_ Hd2].
      destruct (digits_hyphen_inj _ _ _ _ Hd1 Hd2 Heq) as [-> ->]. done. }
  destruct Hstr as [Hstr ->]. split; [by apply Itoa_inj|done].
Qed.

(** X6: the key of a rowset determines its region id, its type id and the
    result type of its envelope: two rowsets are stored under the same
    key exactly when they agree on all three, so documents of different
    regions, types or result types never overwrite each other. *)
Theorem document_key_injective (m m' : EMDRMsg.t) (element element' : Rowset.t) :
  document_key m element = document_key m' element' ↔
  Rowset.RegionID element = Rowset.RegionID element' ∧
  Rowset.TypeID element = Rowset.TypeID element' ∧
  EMDRMsg.ResultType m = EMDRMsg.ResultType m'.
Proof.
  rewrite !document_key_eq. split.
  - intros Heq.
    change ("-" +:+ ?x) with (String "-" x) in Heq.
    apply Itoa_hyphen_inj in Heq as [Hr Heq].
    change ("-" +:+ ?x) with (String "-" x) in Heq.
    apply Itoa_hyphen_inj in Heq as [Ht Hrt]. done.
  - by intros (-> & -> & ->).
Qed.

(** ** Errors that change nothing *)

Lemma decode_and_persist_without_json_errors (env : Env) msg w :
  decode_and_persist (without_json_errors env) msg w = decode_and_persist env msg w.
Proof.
  unfold decode_and_persist.
  change (configuration (without_json_errors env)) with (configuration env).
  change (ZlibDecode (without_json_errors env) msg) with (ZlibDecode env msg).
  case_bool_decide; [done|].
  destruct (ZlibDecode env msg) as [decoded [e|]]; [done|].
  change (json_Unmarshal (without_json_errors env) decoded EMDRMsg.zero)
    with ((json_Unmarshal env decoded EMDRMsg.zero).1, @None error).
  by destruct (json_Unmarshal env decoded EMDRMsg.zero) as [m o].
Qed.

Lemma iteration_without_json_errors (env : Env) r w :
  iteration (without_json_errors env) r w = iteration env r w.
Proof.
  destruct r as [msg zmq_err]. destruct (cache.has (cache_key msg) (lru w)) eqn:Hk.
  - by rewrite !iteration_hit.
  - rewrite !iteration_miss by done. apply decode_and_persist_without_json_errors.
Qed.

(** X7: an error of [json.Unmarshal] is never looked at.  A run behaves
    exactly as it would with a decoder that fills in the same envelope and
    reports no error: the rowsets of whatever was decoded are persisted,
    and the process neither stops nor logs because of the error. *)
Theorem json_errors_are_ignored (env : Env) (b : gmap string EMDRDoc.t)
  (recvs : list (string * option error)) :
  main (without_json_errors env) b recvs = main env b recvs.
Proof.
  rewrite !main_eq. generalize (banner_world b).
  induction recvs as [|r recvs IH]; intros w; [done|].
  rewrite !main_loop_cons, iteration_without_json_errors.
  destruct (iteration env r w); [apply IH|done].
Qed.

(** ** A whole envelope under a steady clock *)

Lemma for_range_persist_steady (env : Env) (m : EMDRMsg.t) (now : time.Time) rs w :
  (∀ n, time_Now env n = now) →
  - 2 ^ 31 ≤ time.Unix now - 3600 < 2 ^ 31 →
  ∃ w',
    for_range rs (persist_rowset env m) w = Ok tt w' ∧
    lru w' = lru w ∧ outbound w' = outbound w ∧
    trace w' = trace w
               ++ map (λ e, BucketSet (document_key m e) (new_doc m e now))
                    (filter (λ e, time.Unix now - 3600 ≤ time.Unix (Rowset.GeneratedAt e)) rs) ∧
    ticks w' = (ticks w + length rs
                + length (filter (λ e, (time.Unix now - 3600 ≤ time.Unix (Rowset.GeneratedAt e))%Z)
                            rs))%nat.
Proof.
  intros Hclock Hnow. revert w. induction rs as [|element rs IH]; intros w.
  - exists w. cbn. rewrite app_nil_r. split_and!; try done. lia.
  - cbn [for_range]. unfold mbind, M_bind.
    rewrite persist_rowset_eq, !Hclock, (in_window_spec element now Hnow), filter_cons.
    case_bool_decide as Hge.
    + rewrite decide_True by done.
      match goal with |- context [for_range rs _ ?w1] =>
        destruct (IH w1) as (w' & -> & Hl & Ho & Ht & Hti) end.
      cbn [lru outbound trace ticks] in *. exists w'.
      split_and!; try done.
      * rewrite Ht, <- app_assoc. done.
      * rewrite Hti. cbn [length]. lia.
    + rewrite decide_False by done.
      match goal with |- context [for_range rs _ ?w1] =>
        destruct (IH w1) as (w' & -> & Hl & Ho & Ht & Hti) end.
      cbn [lru outbound trace ticks] in *. exists w'.
      split_and!; try done. rewrite Hti. cbn [length]. lia.
Qed.

(** X8: when the clock reads the same second [now] throughout the loop
    over the rowsets (and [now] minus 3600 is a 32-bit value), the loop
    writes exactly the rowsets generated at or after [now] minus 3600, in
    the order of the envelope, each under its key and stamped [now]; the
    others leave no trace.  The clock is read once per rowset and once
    more per write. *)
Theorem fresh_rowsets_written_in_order (env : Env) (m : EMDRMsg.t) (now : time.Time)
  (rs : list Rowset.t) (w : World) :
  (∀ n, time_Now env n = now) →
  - 2 ^ 31 ≤ time.Unix now - 3600 < 2 ^ 31 →
  let fresh := filter (λ e, time.Unix now - 3600 ≤ time.Unix (Rowset.GeneratedAt e)) rs in
  let w' := world_of (for_range rs (persist_rowset env m) w) in
  for_range rs (persist_rowset env m) w = Ok tt w' ∧
  since w w' = map (λ e, BucketSet (document_key m e) (new_doc m e now)) fresh ∧
  store_writes (since w w') = map (λ e, (document_key m e, new_doc m e now)) fresh ∧
  ticks w' = (ticks w + length rs + length fresh)%nat.
Proof.
  intros Hclock Hnow fresh w'. subst w' fresh.
  destruct (for_range_persist_steady env m now rs w Hclock Hnow) as (w' & -> & _ & _ & Ht & Hti).
  cbn [world_of]. rewrite (since_app _ _ _ Ht). split_and!; try done.
  generalize (filter (λ e, time.Unix now - 3600 ≤ time.Unix (Rowset.GeneratedAt e)) rs).
  intros l. induction l as [|e l IH]; [done|]. cbn. by rewrite <- IH.
Qed.

Lemma fresh_rowsets_written_in_order_witness :
  let rs := [Rowset.mk (time.mk 3990) 10000210 34 []; Rowset.mk (time.mk 399) 10000210 35 [];
             Rowset.mk (time.mk 400) 10000210 36 []] in
  let m := example_envelope rs in
  let env := example_env true 4000 m in
  let now := time.mk 4000 in
  let w := banner_world ∅ in
  let fresh := filter (λ e, time.Unix now - 3600 ≤ time.Unix (Rowset.GeneratedAt e)) rs in
  let w' := world_of (for_range rs (persist_rowset env m) w) in
  for_range rs (persist_rowset env m) w = Ok tt w' ∧
  since w w' = map (λ e, BucketSet (document_key m e) (new_doc m e now)) fresh ∧
  store_writes (since w w') = map (λ e, (document_key m e, new_doc m e now)) fresh ∧
  ticks w' = (ticks w + length rs + length fresh)%nat.
Proof.
  apply (fresh_rowsets_written_in_order
           (example_env true 4000
              (example_envelope [Rowset.mk (time.mk 3990) 10000210 34 [];
                                 Rowset.mk (time.mk 399) 10000210 35 [];
                                 Rowset.mk (time.mk 400) 10000210 36 []]))
           (example_envelope [Rowset.mk (time.mk 3990) 10000210 34 [];
                              Rowset.mk (time.mk 399) 10000210 35 [];
                              Rowset.mk (time.mk 400) 10000210 36 []])
           (time.mk 4000)
           [Rowset.mk (time.mk 3990) 10000210 34 []; Rowset.mk (time.mk 399) 10000210 35 [];
            Rowset.mk (time.mk 400) 10000210 36 []]
           (banner_world ∅)).
  - intros n. reflexivity.
  - vm_compute. split; [discriminate|reflexivity].
Defined.

(** ** Receive errors *)

Lemma for_range_persist_same_state (env : Env) m rs w1 w2 :
  same_state w1 w2 →
  ∃ w1' w2',
    for_range rs (persist_rowset env m) w1 = Ok tt w1' ∧
    for_range rs (persist_rowset env m) w2 = Ok tt w2' ∧
    same_state w1' w2'.
Proof.
  revert w1 w2. induction rs as [|element rs IH]; intros w1 w2 Hs.
  - by exists w1, w2.
  - cbn [for_range]. unfold mbind, M_bind. rewrite !persist_rowset_eq.
    destruct Hs as (Hl & Ho & Hb & Ht). rewrite <- Ht.
    destruct (in_window element (time_Now env (ticks w1))); apply IH;
      unfold same_state; cbn [lru outbound bucket ticks]; by rewrite ?Hl, ?Ho, ?Hb, ?Ht.
Qed.

Lemma decode_and_persist_same_state (env : Env) msg w1 w2 :
  same_state w1 w2 →
  running (decode_and_persist env msg w1) = running (decode_and_persist env msg w2) ∧
  same_state (world_of (decode_and_persist env msg w1)) (world_of (decode_and_persist env msg w2)).
Proof.
  intros Hs. unfold decode_and_persist. case_bool_decide; [done|].
  destruct (ZlibDecode env msg) as [decoded [e|]]; [done|].
  destruct (json_Unmarshal env decoded EMDRMsg.zero) as [m o].
  by destruct (for_range_persist_same_state env m (EMDRMsg.Rowsets m) w1 w2 Hs)
    as (w1' & w2' & -> & -> & ?).
Qed.

Lemma iteration_same_state (env : Env) msg zmq_err1 zmq_err2 w1 w2 :
  same_state w1 w2 →
  running (iteration env (msg, zmq_err1) w1) = running (iteration env (msg, zmq_err2) w2) ∧
  same_state (world_of (iteration env (msg, zmq_err1) w1))
             (world_of (iteration env (msg, zmq_err2) w2)).
Proof.
  intros (Hl & Ho & Hb & Ht).
  destruct (cache.has (cache_key msg) (lru w1)) eqn:Hk.
  - rewrite (iteration_hit env msg zmq_err1 w1 Hk).
    rewrite (iteration_hit env msg zmq_err2 w2) by (by rewrite <- Hl).
    unfold same_state. cbn. by rewrite Hl, Ho, Hb, Ht.
  - rewrite (iteration_miss env msg zmq_err1 w1 Hk).
    rewrite (iteration_miss env msg zmq_err2 w2) by (by rewrite <- Hl).
    apply decode_and_persist_same_state.
    unfold same_state. cbn. by rewrite Hl, Ho, Hb, Ht.
Qed.

Lemma main_loop_without_errors (env : Env) recvs w1 w2 :
  same_state w1 w2 →
  running (main_loop env recvs w1) = running (main_loop env (without_errors recvs) w2) ∧
  same_state (world_of (main_loop env recvs w1))
             (world_of (main_loop env (without_errors recvs) w2)).
Proof.
  revert w1 w2. induction recvs as [|[msg zmq_err] recvs IH]; intros w1 w2 Hs; [done|].
  cbn [without_errors map fst]. fold (without_errors recvs). rewrite !main_loop_cons.
  destruct (iteration_same_state env msg zmq_err None w1 w2 Hs) as [Hrun Hs'].
  destruct (iteration env (msg, zmq_err) w1) as [[] w1'|c1 w1'],
           (iteration env (msg, None) w2) as [[] w2'|c2 w2']; cbn in Hrun; try done.
  by apply IH.
Qed.

(** X9: a receive error changes nothing but the console.  A run in which
    some receives failed ends, or goes on, exactly like the run in which
    the same messages arrived without error: same cache, same messages
    forwarded, same bucket, same number of clock readings. *)
Theorem recv_errors_only_add_log_lines (env : Env) (b : gmap string EMDRDoc.t)
  (recvs : list (string * option error)) :
  running (main env b recvs) = running (main env b (without_errors recvs)) ∧
  same_state (world_of (main env b recvs)) (world_of (main env b (without_errors recvs))).
Proof. rewrite !main_eq. by apply main_loop_without_errors. Qed.

(** ** Keys and digests *)

(** X10: two messages get the same cache key exactly when their 32-bit
    FNV-1 digests are equal: the hexadecimal rendering neither merges two
    digests nor tells apart two messages with the same digest. *)
Theorem cache_key_eq_iff_digest_eq (msg1 msg2 : string) :
  cache_key msg1 = cache_key msg2 ↔ digest msg1 = digest msg2.
Proof.
  split.
  - intros Hk. pose proof (parse_hex_cache_key msg1) as H1.
    rewrite Hk, parse_hex_cache_key in H1. congruence.
  - intros Hd. unfold cache_key. by rewrite !checksum_eq, Hd.
Qed.

(** ** Forward first, persist afterwards *)

Lemma sends_precede_writes_app (env : Env) (tr chunk : list Event) :
  sends_precede_writes env tr →
  (∀ i k d, chunk !! i = Some (BucketSet k d) →
     ∃ j msg, (j < i)%nat ∧ chunk !! j = Some (Send msg) ∧ document_of env msg (k, d)) →
  sends_precede_writes env (tr ++ chunk).
Proof.
  intros Htr Hchunk i k d Hi. rewrite lookup_app in Hi.
  destruct (tr !! i) as [e|] eqn:Hl.
  - injection Hi as ->. destruct (Htr i k d Hl) as (j & msg & Hj & Hs & Hd).
    exists j, msg. split_and!; [done| |done]. by rewrite lookup_app, Hs.
  - apply lookup_ge_None in Hl.
    destruct (Hchunk _ k d Hi) as (j & msg & Hj & Hs & Hd).
    exists (length tr + j)%nat, msg. split_and!; [lia| |done].
    rewrite lookup_app_r by lia. by replace (length tr + j - length tr)%nat with j by lia.
Qed.

Lemma iteration_sends_precede_writes (env : Env) r w :
  sends_precede_writes env (trace w) →
  sends_precede_writes env (trace (world_of (iteration env r w))).
Proof.
  intros HP. destruct r as [msg zmq_err].
  destruct (cache.has (cache_key msg) (lru w)) eqn:Hk.
  - rewrite (iteration_hit env msg zmq_err w Hk). cbn [world_of trace].
    apply sends_precede_writes_app; [done|].
    intros i k d Hi. apply list_elem_of_lookup_2 in Hi.
    apply elem_of_app in Hi as [Hi|Hi].
    + destruct zmq_err; cbn in Hi; [apply list_elem_of_singleton in Hi|apply not_elem_of_nil in Hi]; done.
    + apply list_elem_of_singleton in Hi. done.
  - rewrite (iteration_miss env msg zmq_err w Hk).
    match goal with |- context [decode_and_persist env msg ?w1] =>
      destruct (decode_and_persist_provenance env msg w1) as (evs & Ht & _ & Hev) end.
    cbn [trace] in Ht. rewrite Ht, <- app_assoc.
    apply sends_precede_writes_app; [done|].
    intros i k d Hi.
    set (head := recv_log zmq_err
                 ++ [CacheGet (cache_key msg) false; CacheSet (cache_key msg)]) in *.
    assert (Hsplit : (recv_log zmq_err
                      ++ [CacheGet (cache_key msg) false; CacheSet (cache_key msg); Send msg])
                     ++ evs = head ++ Send msg :: evs)
      by (subst head; by rewrite <- !app_assoc).
    rewrite Hsplit in Hi |- *.
    assert (Hhead : ∀ i, head !! i ≠ Some (BucketSet k d)).
    { intros i0 Hi0. apply list_elem_of_lookup_2 in Hi0. subst head.
      apply elem_of_app in Hi0 as [Hi0|Hi0].
      - destruct zmq_err; cbn in Hi0;
          [apply list_elem_of_singleton in Hi0|apply not_elem_of_nil in Hi0]; done.
      - repeat (apply elem_of_cons in Hi0 as [Hi0|Hi0]; [done|]).
        by apply not_elem_of_nil in Hi0. }
    rewrite lookup_app in Hi. destruct (head !! i) as [e|] eqn:Hl.
    { injection Hi as ->. by destruct (Hhead i). }
    apply lookup_ge_None in Hl.
    destruct (i - length head)%nat as [|i'] eqn:Hi'; [done|]. cbn [lookup list_lookup] in Hi.
    exists (length head), msg. split_and!; [lia| |].
    + rewrite lookup_app_r by lia. by rewrite Nat.sub_diag.
    + apply (proj1 (Forall_forall _ _) Hev). apply list_elem_of_omap.
      exists (BucketSet k d). split; [|done]. by eapply list_elem_of_lookup_2.
Qed.

(** X11: persistence comes after the forward.  In the trace of every run,
    an upsert is preceded by the [Send] of a message that decompresses to
    an envelope holding the rowset the document was built from: nothing is
    written to the bucket on behalf of a message that has not already gone
    out to the subscribers. *)
Theorem forward_precedes_persistence (env : Env) (b : gmap string EMDRDoc.t)
  (recvs : list (string * option error)) (i : nat) (k : string) (d : EMDRDoc.t) :
  trace (world_of (main env b recvs)) !! i = Some (BucketSet k d) →
  ∃ j msg, (j < i)%nat ∧
           trace (world_of (main env b recvs)) !! j = Some (Send msg) ∧
           document_of env msg (k, d).
Proof.
  revert i k d. change (sends_precede_writes env (trace (world_of (main env b recvs)))).
  rewrite main_eq. apply (main_loop_invariant env (λ w, sends_precede_writes env (trace w))).
  - intros r w. apply iteration_sends_precede_writes.
  - intros i k d Hi. apply list_elem_of_lookup_2 in Hi. cbn in Hi.
    repeat (apply elem_of_cons in Hi as [Hi|Hi]; [done|]). by apply not_elem_of_nil in Hi.
Qed.

Lemma forward_precedes_persistence_witness :
  let envelope := example_envelope [Rowset.mk (time.mk 3990) 10000210 34 []] in
  let env := example_env true 4000 envelope in
  let r := main env ∅ [("xabc", None)] in
  ∃ j msg, (j < 7)%nat ∧
           trace (world_of r) !! j = Some (Send msg) ∧
           document_of env msg
             ("10000210-34-history",
              EMDRDoc.mk 10000210 34 4000 [UploadKey.mk "EMDR" "abc"] "history").
Proof.
  apply (forward_precedes_persistence
           (example_env true 4000 (example_envelope [Rowset.mk (time.mk 3990) 10000210 34 []]))
           ∅ [("xabc", None)] 7 "10000210-34-history"
           (EMDRDoc.mk 10000210 34 4000 [UploadKey.mk "EMDR" "abc"] "history")).
  vm_compute. reflexivity.
Defined.

(** * The cache at the moment of the forward *)

Lemma iteration_miss_at_set (env : Env) msg zmq_err w :
  cache.has (cache_key msg) (lru w) = false →
  iteration env (msg, zmq_err) w
  = (sender_Send msg ;; decode_and_persist env msg) (world_at_set msg zmq_err w).
Proof.
  intros Hmiss. rewrite (iteration_miss env msg zmq_err w Hmiss).
  unfold mbind, M_bind, sender_Send, emit, world_at_set. cbn [lru outbound bucket trace ticks].
  by rewrite <- !app_assoc.
Qed.

Lemma main_loop_snoc (env : Env) recvs r w :
  main_loop env (recvs ++ [r]) w =
  match main_loop env recvs w with
  | Ok _ w' => iteration env r w'
  | Exit code w' => Exit code w'
  end.
Proof.
  revert w. induction recvs as [|r0 recvs IH]; intros w.
  - cbn [app]. rewrite main_loop_cons. change (main_loop env [] w) with (Ok tt w).
    cbv iota beta. by destruct (iteration env r w) as [[] ?|? ?].
  - cbn [app]. rewrite !main_loop_cons. destruct (iteration env r0 w); [apply IH|done].
Qed.

(** Every [Send] of a run was issued by the turn of the loop on one of the
    received messages, found absent from the cache, from the world in
    which [cache.Set] had just returned. *)
Lemma main_loop_send_origin (env : Env) recvs w0 i msg :
  (∀ m, Send m ∉ trace w0) →
  trace (world_of (main_loop env recvs w0)) !! i = Some (Send msg) →
  ∃ pre zmq_err post w,
    recvs = pre ++ (msg, zmq_err) :: post ∧
    main_loop env pre w0 = Ok tt w ∧
    cache.has (cache_key msg) (lru w) = false ∧
    trace (world_at_set msg zmq_err w) = take i (trace (world_of (main_loop env recvs w0))).
Proof.
  intros Hw0. revert i msg. induction recvs as [|[m z] recvs IH] using rev_ind; intros i msg Hi.
  - apply list_elem_of_lookup_2 in Hi. by destruct (Hw0 msg).
  - rewrite main_loop_snoc in Hi |- *.
    destruct (main_loop env recvs w0) as [[] w1|code w1] eqn:Hrun; cbn [world_of] in *.
    + pose proof (iteration_spec env m z w1) as Hspec. cbv zeta in Hspec.
      destruct (cache.has (cache_key m) (lru w1)) eqn:Hk.
      * destruct Hspec as (_ & _ & _ & _ & _ & Ht). rewrite Ht in Hi |- *.
        rewrite lookup_app in Hi. destruct (trace w1 !! i) as [e|] eqn:Hl.
        -- injection Hi as ->. destruct (IH i msg Hl) as (pre & z' & post & w & -> & Hpre & Hmiss & Htr).
           exists pre, z', (post ++ [(m, z)]), w. split_and!; try done.
           ++ by rewrite <- app_assoc.
           ++ rewrite Htr. symmetry. apply take_app_le.
              apply lookup_lt_Some in Hl. lia.
        -- apply list_elem_of_lookup_2 in Hi. apply elem_of_app in Hi as [Hi|Hi].
           ++ destruct z; cbn in Hi;
                [apply list_elem_of_singleton in Hi|apply not_elem_of_nil in Hi]; done.
           ++ apply list_elem_of_singleton in Hi. done.
      * destruct Hspec as (evs & _ & _ & _ & Ht & Hev). rewrite Ht in Hi |- *.
        rewrite lookup_app in Hi. destruct (trace w1 !! i) as [e|] eqn:Hl.
        -- injection Hi as ->. destruct (IH i msg Hl) as (pre & z' & post & w & -> & Hpre & Hmiss & Htr).
           exists pre, z', (post ++ [(m, z)]), w. split_and!; try done.
           ++ by rewrite <- app_assoc.
           ++ rewrite Htr. symmetry. apply take_app_le.
              apply lookup_lt_Some in Hl. lia.
        -- apply lookup_ge_None in Hl.
           set (head := recv_log z ++ [CacheGet (cache_key m) false; CacheSet (cache_key m)]) in *.
           assert (Hsplit : recv_log z
                            ++ [CacheGet (cache_key m) false; CacheSet (cache_key m); Send m] ++ evs
                            = head ++ Send m :: evs)
             by (subst head; by rewrite <- !app_assoc).
           rewrite Hsplit in Hi |- *.
           assert (Hhead : ∀ n, head !! n ≠ Some (Send msg)).
           { intros n Hn. apply list_elem_of_lookup_2 in Hn. subst head.
             apply elem_of_app in Hn as [Hn|Hn].
             - destruct z; cbn in Hn;
                 [apply list_elem_of_singleton in Hn|apply not_elem_of_nil in Hn]; done.
             - repeat (apply elem_of_cons in Hn as [Hn|Hn]; [done|]).
               by apply not_elem_of_nil in Hn. }
           rewrite lookup_app in Hi.
           destruct (head !! (i - length (trace w1))%nat) as [e|] eqn:Hh.
           { injection Hi as ->. by destruct (Hhead _ Hh). }
           apply lookup_ge_None in Hh.
           destruct (i - length (trace w1) - length head)%nat as [|n] eqn:Hn.
           ++ cbn in Hi. injection Hi as ->.
              exists recvs, z, [], w1. split_and!; [done|done|done|].
              unfold world_at_set. cbn [trace]. fold head.
              rewrite app_assoc. symmetry. apply take_app_length'.
              rewrite length_app. lia.
           ++ cbn in Hi. apply list_elem_of_lookup_2 in Hi.
              by apply (persist_event_not_send evs msg Hev) in Hi.
    + destruct (IH i msg Hi) as (pre & z' & post & w & -> & Hpre & Hmiss & Htr).
      exists pre, z', (post ++ [(m, z)]), w. split_and!; try done.
      by rewrite <- app_assoc.
Qed.

(** C4: in every run of the relay, whatever it receives, a message is
    handed to the outbound socket only after its fingerprint has been
    inserted into the cache.  Every [Send] in the trace is immediately
    preceded by the [CacheSet] of the key of the message sent, and the
    messages on the outbound socket are exactly those [Send]s.  Moreover
    the [Send] was issued by the turn of the loop on that message, from
    the very world in which [cache.Set] had just returned: the trace of
    that world is the trace up to the [Send], its cache is the result of
    [cache.Set] on the cache the message was not found in, and that cache
    holds the key. *)
Theorem cache_set_precedes_forward (env : Env) (b : gmap string EMDRDoc.t)
  (recvs : list (string * option error)) (i : nat) (msg : string) :
  trace (world_of (main env b recvs)) !! i = Some (Send msg) →
  outbound (world_of (main env b recvs)) = sends (trace (world_of (main env b recvs))) ∧
  (∃ j, i = S j ∧
        trace (world_of (main env b recvs)) !! j = Some (CacheSet (cache_key msg))) ∧
  ∃ pre zmq_err post w,
    recvs = pre ++ (msg, zmq_err) :: post ∧
    main env b pre = Ok tt w ∧
    cache.has (cache_key msg) (lru w) = false ∧
    iteration env (msg, zmq_err) w
    = (sender_Send msg ;; decode_and_persist env msg) (world_at_set msg zmq_err w) ∧
    trace (world_at_set msg zmq_err w) = take i (trace (world_of (main env b recvs))) ∧
    lru (world_at_set msg zmq_err w)
    = cache.Set_ (cache_key msg) {| found := true |} (lru w) ∧
    cache.has (cache_key msg) (lru (world_at_set msg zmq_err w)) = true.
Proof.
  intros Hi. destruct (outbound_is_sends env b recvs) as [Hsps Hout].
  split_and!; [exact Hout|by apply Hsps|].
  rewrite main_eq in Hi.
  destruct (main_loop_send_origin env recvs (banner_world b) i msg) as
    (pre & z & post & w & Hrecvs & Hpre & Hmiss & Htr); [|exact Hi|].
  { intros m Hin. cbn in Hin. repeat (apply elem_of_cons in Hin as [Hin|Hin]; [done|]).
    by apply not_elem_of_nil in Hin. }
  exists pre, z, post, w.
  assert (Hpre' : main env b pre = Ok tt w) by (by rewrite main_eq).
  split_and!; [done|done|done|by apply iteration_miss_at_set|by rewrite main_eq|done|].
  cbn [world_at_set lru]. apply Set_has.
  rewrite (main_running_capacity env b pre w Hpre'). done.
Qed.

Lemma cache_set_precedes_forward_witness :
  let env := example_env true 4000 (example_envelope []) in
  let recvs := [("xabc", None); ("xabc", None); ("xyz", None)] in
  outbound (world_of (main env ∅ recvs)) = sends (trace (world_of (main env ∅ recvs))) ∧
  (∃ j, 10%nat = S j ∧
        trace (world_of (main env ∅ recvs)) !! j = Some (CacheSet (cache_key "xyz"))) ∧
  ∃ pre zmq_err post w,
    recvs = pre ++ ("xyz", zmq_err) :: post ∧
    main env ∅ pre = Ok tt w ∧
    cache.has (cache_key "xyz") (lru w) = false ∧
    iteration env ("xyz", zmq_err) w
    = (sender_Send "xyz" ;; decode_and_persist env "xyz") (world_at_set "xyz" zmq_err w) ∧
    trace (world_at_set "xyz" zmq_err w) = take 10 (trace (world_of (main env ∅ recvs))) ∧
    lru (world_at_set "xyz" zmq_err w)
    = cache.Set_ (cache_key "xyz") {| found := true |} (lru w) ∧
    cache.has (cache_key "xyz") (lru (world_at_set "xyz" zmq_err w)) = true.
Proof.
  apply (cache_set_precedes_forward (example_env true 4000 (example_envelope [])) ∅
           [("xabc", None); ("xabc", None); ("xyz", None)] 10 "xyz").
  vm_compute. reflexivity.
Defined.

(** * The freshness test once the clock passes 32 bits *)

(** The test of line 174 for every clock reading: the threshold is the
    reading minus 3600 wrapped to 32 bits. *)
Lemma in_window_wrapped (element : Rowset.t) (now : time.Time) :
  in_window element now
  = bool_decide (int32 (time.Unix now - 3600) ≤ time.Unix (Rowset.GeneratedAt element)).
Proof.
  unfold in_window. rewrite int32_sub_3600.
  case_bool_decide; [by apply Z.leb_le|by apply Z.leb_gt; lia].
Qed.

(** C6 (the code departs from it): the test of line 174 narrows the clock
    reading with [int32] before it subtracts 3600, so the threshold is the
    reading minus 3600 only while that fits 32 bits.  At Unix time
    2147487248 (19 January 2038) the threshold is -2147483648: a relay
    with persistence enabled that receives a new message whose envelope
    holds a rowset generated at Unix time 0, far more than an hour
    earlier, forwards the message and writes that rowset to the bucket. *)
Theorem stale_rowset_persisted_after_2038 :
  let now := 2147487248 in
  let stale := Rowset.mk (time.mk 0) 10000210 34 [] in
  let envelope := example_envelope [stale] in
  let env := example_env true now envelope in
  let r := main env ∅ [("xabc", None)] in
  let doc := EMDRDoc.mk 10000210 34 (-2147480048) [UploadKey.mk "EMDR" "abc"] "history" in
  (∀ element t, in_window element t
                = bool_decide (int32 (time.Unix t - 3600)
                               ≤ time.Unix (Rowset.GeneratedAt element))) ∧
  ZlibDecode env "xabc" = (bytes_of_string "abc", None) ∧
  json_Unmarshal env (bytes_of_string "abc") EMDRMsg.zero = (envelope, None) ∧
  EMDRMsg.Rowsets envelope = [stale] ∧
  time.Unix (Rowset.GeneratedAt stale) < now - 3600 ∧
  int32 (int32 now - 3600) = -2147483648 ∧
  running r = true ∧
  outbound (world_of r) = ["xabc"] ∧
  store_writes (trace (world_of r)) = [("10000210-34-history", doc)] ∧
  bucket (world_of r) !! "10000210-34-history" = Some doc.
Proof.
  cbv zeta. split_and!; [intros element t; apply in_window_wrapped|..];
    vm_compute; reflexivity.
Qed.

(** * Rowsets of one message sharing a key *)

Lemma for_range_persist_ticks (env : Env) m rs w :
  ticks (world_of (for_range rs (persist_rowset env m) w)) = reading_after env rs (ticks w).
Proof.
  revert w. induction rs as [|element rs IH]; intros w; [done|].
  cbn [for_range reading_after]. unfold mbind, M_bind. rewrite persist_rowset_eq, IH.
  by destruct (in_window element (time_Now env (ticks w))).
Qed.

(** In a sequence of upserts the last one under a key decides what the
    bucket holds under that key. *)
Lemma apply_writes_last (ws : list (string * EMDRDoc.t)) (b : gmap string EMDRDoc.t)
  (k : string) :
  apply_writes ws b !! k
  = match last (filter (λ kd, kd.1 = k) ws) with
    | Some kd => Some kd.2
    | None => b !! k
    end.
Proof.
  induction ws as [|[k0 d0] ws IH] using rev_ind; [done|].
  rewrite apply_writes_app, filter_app, last_app. cbn [apply_writes foldl fst snd].
  rewrite filter_cons, filter_nil. cbn [fst].
  destruct (decide (k0 = k)) as [->|Hne].
  - cbn [last snd]. apply lookup_insert_eq.
  - cbn [last]. rewrite lookup_insert_ne by done. exact IH.
Qed.

(** A new message that decompresses, with persistence enabled: the turn of
    the loop is the loop over the rowsets of the decoded envelope, run
    from the world in which the message has just been sent. *)
Lemma iteration_persists (env : Env) msg zmq_err w decoded m o :
  Configuration.CouchbaseCache (configuration env) = true →
  cache.has (cache_key msg) (lru w) = false →
  ZlibDecode env msg = (decoded, None) →
  json_Unmarshal env decoded EMDRMsg.zero = (m, o) →
  iteration env (msg, zmq_err) w
  = for_range (EMDRMsg.Rowsets m) (persist_rowset env m)
      (mkWorld (cache.Set_ (cache_key msg) {| found := true |} (lru w))
         (outbound w ++ [msg]) (bucket w)
         (trace w ++ recv_log zmq_err
            ++ [CacheGet (cache_key msg) false; CacheSet (cache_key msg); Send msg])
         (ticks w)).
Proof.
  intros Hflag Hmiss Hdec Hjson. rewrite (iteration_miss env msg zmq_err w Hmiss).
  unfold decode_and_persist. rewrite Hflag, Hdec, Hjson.
  by rewrite bool_decide_eq_false_2 by done.
Qed.

Lemma reading_after_app (env : Env) rs1 rs2 t :
  reading_after env (rs1 ++ rs2) t = reading_after env rs2 (reading_after env rs1 t).
Proof. revert t. induction rs1 as [|e rs1 IH]; intros t; [done|]. cbn. apply IH. Qed.

Lemma reading_after_le (env : Env) rs t : (t ≤ reading_after env rs t)%nat.
Proof.
  revert t. induction rs as [|e rs IH]; intros t; [done|]. cbn [reading_after].
  etrans; [|apply IH]. destruct (in_window e (time_Now env t)); lia.
Qed.

(** C10: the key of a rowset is made of its region id, its type id and the
    result type of its envelope, nothing else.  When the relay processes a
    new message whose decoded envelope holds two rowsets with the same
    region and type ids, and both pass the freshness test at the clock
    readings at which the loop reaches them, both are written under the
    same key, in the order of the rowsets and with the clock readings of
    their own turns, and the later write replaces the earlier: after the
    message the bucket holds, under every key, the document of the last
    write under that key and no other; under the shared key that is the
    document of the later rowset, unless a rowset still further on wrote
    under the same key again. *)
Theorem duplicate_rowsets_last_write_wins (env : Env) (msg : string)
  (zmq_err : option error) (w : World) (decoded : list Z) (m : EMDRMsg.t)
  (o : option error) (pre : list Rowset.t) (e1 : Rowset.t) (mid : list Rowset.t)
  (e2 : Rowset.t) (post : list Rowset.t) :
  Configuration.CouchbaseCache (configuration env) = true →
  cache.has (cache_key msg) (lru w) = false →
  ZlibDecode env msg = (decoded, None) →
  json_Unmarshal env decoded EMDRMsg.zero = (m, o) →
  EMDRMsg.Rowsets m = pre ++ e1 :: mid ++ e2 :: post →
  Rowset.RegionID e1 = Rowset.RegionID e2 →
  Rowset.TypeID e1 = Rowset.TypeID e2 →
  let t1 := reading_after env pre (ticks w) in
  let t2 := reading_after env (pre ++ e1 :: mid) (ticks w) in
  in_window e1 (time_Now env t1) = true →
  in_window e2 (time_Now env t2) = true →
  let key := document_key m e2 in
  let d1 := new_doc m e1 (time_Now env (S t1)) in
  let d2 := new_doc m e2 (time_Now env (S t2)) in
  let w' := world_of (iteration env (msg, zmq_err) w) in
  let ws := store_writes (since w w') in
  iteration env (msg, zmq_err) w = Ok tt w' ∧
  document_key m e1 = key ∧
  (S t1 < S t2)%nat ∧
  bucket w' = apply_writes ws (bucket w) ∧
  (∀ k, bucket w' !! k = match last (filter (λ kd, kd.1 = k) ws) with
                          | Some kd => Some kd.2
                          | None => bucket w !! k
                          end) ∧
  ∃ ws0 ws1 ws2,
    ws = ws0 ++ (key, d1) :: ws1 ++ (key, d2) :: ws2 ∧
    Forall (λ kd, ∃ element, element ∈ post ∧ kd.1 = document_key m element) ws2 ∧
    bucket w' !! key = Some (from_option snd d2 (last (filter (λ kd, kd.1 = key) ws2))).
Proof.
  intros Hflag Hmiss Hdec Hjson Hrs Hregion Htype t1 t2 Hin1 Hin2 key d1 d2 w' ws.
  assert (Hkey : document_key m e1 = key).
  { subst key. by rewrite !document_key_eq, Hregion, Htype. }
  assert (Ht2 : t2 = reading_after env mid (S (S t1))).
  { subst t2. rewrite reading_after_app. fold t1. cbn [reading_after]. by rewrite Hin1. }
  assert (Hlt : (S t1 < S t2)%nat).
  { rewrite Ht2. pose proof (reading_after_le env mid (S (S t1))). lia. }
  subst w' ws. rewrite (iteration_persists env msg zmq_err w decoded m o Hflag Hmiss Hdec Hjson).
  set (w_sent := mkWorld _ _ _ _ _).
  assert (Hsent : trace w_sent
                  = trace w ++ recv_log zmq_err
                    ++ [CacheGet (cache_key msg) false; CacheSet (cache_key msg); Send msg])
    by done.
  assert (Hbs : bucket w_sent = bucket w) by done.
  rewrite Hrs, for_range_persist_app.
  pose proof (for_range_persist_ticks env m pre w_sent) as Hti1.
  destruct (for_range_persist_writes env m pre w_sent) as (w1 & ws0 & Hr1 & _ & Ht1 & Hb1 & _).
  rewrite Hr1 in Hti1 |- *. cbn [world_of] in Hti1 |- *.
  change (ticks w_sent) with (ticks w) in Hti1. fold t1 in Hti1.
  rewrite (for_range_persist_cons env m e1 _ w1) by (by rewrite Hti1).
  rewrite Hti1, Hkey. fold d1.
  rewrite for_range_persist_app.
  match goal with |- context [for_range mid _ ?w2] =>
    pose proof (for_range_persist_ticks env m mid w2) as Hti3;
    destruct (for_range_persist_writes env m mid w2)
      as (w3 & ws1 & Hr3 & _ & Ht3 & Hb3 & _) end.
  rewrite Hr3 in Hti3 |- *. cbn [world_of trace bucket ticks] in Hti3, Ht3, Hb3 |- *.
  rewrite <- Ht2 in Hti3.
  rewrite (for_range_persist_cons env m e2 _ w3) by (by rewrite Hti3).
  rewrite Hti3. fold key d2.
  match goal with |- context [for_range post _ ?w4] =>
    destruct (for_range_persist_writes env m post w4)
      as (w5 & ws2 & Hr5 & _ & Ht5 & Hb5 & Hws2) end.
  rewrite Hr5. cbn [world_of trace bucket ticks] in Ht5, Hb5 |- *.
  assert (Hsince : store_writes (since w w5) = ws0 ++ (key, d1) :: ws1 ++ (key, d2) :: ws2).
  { rewrite (since_app w w5
               ((recv_log zmq_err
                 ++ [CacheGet (cache_key msg) false; CacheSet (cache_key msg); Send msg])
                ++ map (λ kd, BucketSet kd.1 kd.2) ws0 ++ [BucketSet key d1]
                ++ map (λ kd, BucketSet kd.1 kd.2) ws1 ++ [BucketSet key d2]
                ++ map (λ kd, BucketSet kd.1 kd.2) ws2)).
    - rewrite !store_writes_app, !store_writes_bucket_sets.
      by destruct zmq_err.
    - rewrite Ht5, Ht3, Ht1, Hsent, <- !app_assoc. done. }
  assert (Hbucket : bucket w5
                    = apply_writes (ws0 ++ (key, d1) :: ws1 ++ (key, d2) :: ws2) (bucket w)).
  { rewrite Hb5, Hb3, Hb1, Hbs.
    by rewrite apply_writes_app, apply_writes_cons, apply_writes_app, apply_writes_cons. }
  rewrite Hsince.
  split_and!; [done|done|done|done| |].
  - intros k. rewrite Hbucket. apply apply_writes_last.
  - exists ws0, ws1, ws2. split_and!; [done| |].
    + eapply Forall_impl; [exact Hws2|]. intros kd (e & n & He & _ & ->). by exists e.
    + rewrite Hbucket, apply_writes_last.
      rewrite filter_app, filter_cons, filter_app, (filter_cons _ (key, d2)).
      cbn [fst]. rewrite !(decide_True (P := key = key)) by done.
      rewrite last_app, last_cons, last_app, last_cons.
      by destruct (last (filter (λ kd : string * EMDRDoc.t, kd.1 = key) ws2)) as [[k' d']|].
Qed.

Lemma duplicate_rowsets_last_write_wins_witness :
  let e1 := Rowset.mk (time.mk 3990) 10000210 34 [] in
  let e2 := Rowset.mk (time.mk 3995) 10000210 34 [] in
  let e3 := Rowset.mk (time.mk 0) 10000210 34 [] in
  let m := example_envelope [e1; e2; e3] in
  let env := ticking_env true 4000 m in
  let w := banner_world ∅ in
  let t1 := reading_after env [] (ticks w) in
  let t2 := reading_after env ([] ++ e1 :: []) (ticks w) in
  let key := document_key m e2 in
  let d1 := new_doc m e1 (time_Now env (S t1)) in
  let d2 := new_doc m e2 (time_Now env (S t2)) in
  let w' := world_of (iteration env ("xabc", None) w) in
  let ws := store_writes (since w w') in
  iteration env ("xabc", None) w = Ok tt w' ∧
  document_key m e1 = key ∧
  (S t1 < S t2)%nat ∧
  bucket w' = apply_writes ws (bucket w) ∧
  (∀ k, bucket w' !! k = match last (filter (λ kd, kd.1 = k) ws) with
                          | Some kd => Some kd.2
                          | None => bucket w !! k
                          end) ∧
  ∃ ws0 ws1 ws2,
    ws = ws0 ++ (key, d1) :: ws1 ++ (key, d2) :: ws2 ∧
    Forall (λ kd, ∃ element, element ∈ [e3] ∧ kd.1 = document_key m element) ws2 ∧
    bucket w' !! key = Some (from_option snd d2 (last (filter (λ kd, kd.1 = key) ws2))).
Proof.
  apply (duplicate_rowsets_last_write_wins
           (ticking_env true 4000
              (example_envelope [Rowset.mk (time.mk 3990) 10000210 34 [];
                                 Rowset.mk (time.mk 3995) 10000210 34 [];
                                 Rowset.mk (time.mk 0) 10000210 34 []]))
           "xabc" None (banner_world ∅) (bytes_of_string "abc")
           (example_envelope [Rowset.mk (time.mk 3990) 10000210 34 [];
                              Rowset.mk (time.mk 3995) 10000210 34 [];
                              Rowset.mk (time.mk 0) 10000210 34 []])
           None [] (Rowset.mk (time.mk 3990) 10000210 34 []) []
           (Rowset.mk (time.mk 3995) 10000210 34 [])
           [Rowset.mk (time.mk 0) 10000210 34 []]);
    vm_compute; reflexivity.
Defined.

(** The run of that message: both rowsets are written, the first stamped
    4001 and the second 4003, and the bucket keeps the second. *)
Example duplicate_rowsets_run :
  let e1 := Rowset.mk (time.mk 3990) 10000210 34 [] in
  let e2 := Rowset.mk (time.mk 3995) 10000210 34 [] in
  let e3 := Rowset.mk (time.mk 0) 10000210 34 [] in
  let r := main (ticking_env true 4000 (example_envelope [e1; e2; e3])) ∅ [("xabc", None)] in
  let doc t := EMDRDoc.mk 10000210 34 t [UploadKey.mk "EMDR" "abc"] "history" in
  store_writes (trace (world_of r))
  = [("10000210-34-history", doc 4001); ("10000210-34-history", doc 4003)] ∧
  bucket (world_of r) !! "10000210-34-history" = Some (doc 4003).
Proof. cbv zeta. split; vm_compute; reflexivity. Qed.
